(** * EncFS base-N codec and null name codec: a shallow embedding

    The development follows [base/base64.cpp] (changeBase2, changeBase2Inline,
    B64ToAscii, AsciiToB64, B32ToAscii, AsciiToB32, B64StandardDecode) and
    [fs/NullNameIO.cpp] (the null name codec).

    Conventions.
    - A [byte] (unsigned char) is a [Z] in [0, 256); a store through a
      [byte*] is reduced modulo 256 ([byte_of]).
    - [unsigned long] is the 64-bit type of LP64; the conversion is [ulong_of].
    - [int] variables (bit counts, lengths) are [Z] or [nat]; on the inputs
      the theorems cover they stay far inside the 32-bit range.
    - An array is a [list Z]; an access outside of it is undefined behaviour
      in C and is reported as [OutOfBounds].
    - A loop whose exit condition can never become true is reported as
      [Diverges]. *)

From Stdlib Require Import ZArith List Lia Bool String Ascii ZifyBool.
From stdpp Require Import base list numbers.

Local Open Scope Z_scope.

(** ** Machine integers *)

Definition byte_of (z : Z) : Z := z mod 256.
Definition ulong_of (z : Z) : Z := z mod 2 ^ 64.

Definition is_byte (v : Z) : Prop := 0 <= v < 256.

(** ** Outcomes of a C function *)

Inductive outcome (A : Type) : Type :=
| Ret (a : A)
| OutOfBounds
| Diverges.

Arguments Ret {A} a.
Arguments OutOfBounds {A}.
Arguments Diverges {A}.

Definition obind {A B} (m : outcome A) (k : A -> outcome B) : outcome B :=
  match m with
  | Ret a => k a
  | OutOfBounds => OutOfBounds
  | Diverges => Diverges
  end.

#[global] Instance outcome_bind : MBind outcome :=
  fun A B k m => obind m k.

(** ** Arrays of bytes *)

(** [*(p + i)] as an rvalue. *)
Definition load (buf : list Z) (i : nat) : outcome Z :=
  match buf !! i with
  | Some v => Ret v
  | None => OutOfBounds
  end.

(** [*(p + i) = v] with [p] a [byte*]. *)
Definition store (buf : list Z) (i : nat) (v : Z) : outcome (list Z) :=
  if decide (i < length buf)%nat then Ret (<[i := byte_of v]> buf)
  else OutOfBounds.

(** ** changeBase2 *)

(** [const int mask = (1 << dst2Pow) - 1;] *)
Definition mask_of (dst2Pow : Z) : Z := Z.shiftl 1 dst2Pow - 1.

(** The inner loop
    [while (workBits >= dst2Pow) { *dst++ = work & mask; work >>= dst2Pow;
    workBits -= dst2Pow; }].
    [pos] is [dst - origDst].  With [dst2Pow >= 1] the body runs at most
    [workBits] times, which is the fuel the callers give.  [workBits] is an
    integer without bound here: the [int] of the source stays in its range
    when [dst2Pow >= 0], where the loop only lowers it; no property below
    runs the loop with a negative [dst2Pow]. *)
Fixpoint drain (fuel : nat) (dst2Pow : Z) (work workBits : Z)
    (dst : list Z) (pos : nat) : outcome (Z * Z * list Z * nat) :=
  if workBits >=? dst2Pow then
    match fuel with
    | O => Diverges
    | S fuel' =>
        dst' ← store dst pos (Z.land work (mask_of dst2Pow));
        drain fuel' dst2Pow (Z.shiftr work dst2Pow) (workBits - dst2Pow)
              dst' (S pos)
    end
  else Ret (work, workBits, dst, pos).

(** The outer loop [while (src != end) { ... }]; [src] is the array
    [src[0 .. srcLen)]. *)
Fixpoint changeBase2_loop (src : list Z) (src2Pow dst2Pow : Z)
    (work workBits : Z) (dst : list Z) (pos : nat)
    : outcome (Z * Z * list Z * nat) :=
  match src with
  | [] => Ret (work, workBits, dst, pos)
  | s :: src' =>
      let work := Z.lor work (ulong_of (Z.shiftl s workBits)) in
      let workBits := workBits + src2Pow in
      '(work, workBits, dst, pos) ←
         drain (Z.to_nat workBits) dst2Pow work workBits dst pos;
      changeBase2_loop src' src2Pow dst2Pow work workBits dst pos
  end.

(** The whole function; the result is the destination array and the final
    value of [dst - origDst]. *)
Definition changeBase2_run (src : list Z) (src2Pow : Z)
    (dst : list Z) (dstLen : Z) (dst2Pow : Z) : outcome (list Z * nat) :=
  '(work, workBits, dst, pos) ←
     changeBase2_loop src src2Pow dst2Pow 0 0 dst 0%nat;
  if negb (workBits =? 0) && (Z.of_nat pos <? dstLen) then
    dst' ← store dst pos (Z.land work (mask_of dst2Pow));
    Ret (dst', S pos)
  else Ret (dst, pos).

Definition changeBase2 (src : list Z) (src2Pow : Z)
    (dst : list Z) (dstLen : Z) (dst2Pow : Z) : outcome (list Z) :=
  '(dst, _) ← changeBase2_run src src2Pow dst dstLen dst2Pow;
  Ret dst.

(** ** changeBase2Inline *)

(** [while (srcLen && workBits < dst2Pow) { work |= ((unsigned long)( *src++))
    << workBits; workBits += src2Pow; --srcLen; }]
    [src] is the offset of the read pointer in the buffer. *)
Fixpoint gather (buf : list Z) (src srcLen : nat) (src2Pow dst2Pow : Z)
    (work workBits : Z) : outcome (nat * nat * Z * Z) :=
  match srcLen with
  | O => Ret (src, srcLen, work, workBits)
  | S srcLen' =>
      if workBits <? dst2Pow then
        v ← load buf src;
        gather buf (S src) srcLen' src2Pow dst2Pow
               (Z.lor work (ulong_of (Z.shiftl v workBits)))
               (workBits + src2Pow)
      else Ret (src, srcLen, work, workBits)
  end.

(** [while (workBits > 0) { *outLoc++ = work & mask; work >>= dst2Pow;
    workBits -= dst2Pow; }] *)
Fixpoint flush (fuel : nat) (dst2Pow : Z) (work workBits : Z)
    (buf : list Z) (outLoc : nat) : outcome (list Z) :=
  if workBits >? 0 then
    match fuel with
    | O => Diverges
    | S fuel' =>
        buf' ← store buf outLoc (Z.land work (mask_of dst2Pow));
        flush fuel' dst2Pow (Z.shiftr work dst2Pow) (workBits - dst2Pow)
              buf' (S outLoc)
    end
  else Ret buf.

(** The static helper.  [outLoc = None] is the null pointer; [depth] bounds
    the recursion.  As in [drain], [workBits] is an integer without bound,
    which is the [int] of the source as long as that does not overflow. *)
Fixpoint changeBase2Inline_rec (depth : nat) (buf : list Z)
    (src srcLen : nat) (src2Pow dst2Pow : Z) (outputPartialLastByte : bool)
    (work workBits : Z) (outLoc : option nat) : outcome (list Z) :=
  let outLoc := match outLoc with Some p => p | None => src end in
  '(src, srcLen, work, workBits) ←
     gather buf src srcLen src2Pow dst2Pow work workBits;
  let outVal := byte_of (Z.land work (mask_of dst2Pow)) in
  let work := Z.shiftr work dst2Pow in
  let workBits := workBits - dst2Pow in
  match srcLen with
  | S _ =>
      match depth with
      | O => Diverges
      | S depth' =>
          buf' ← changeBase2Inline_rec depth' buf src srcLen
                       src2Pow dst2Pow outputPartialLastByte
                       work workBits (Some (S outLoc));
          store buf' outLoc outVal
      end
  | O =>
      buf' ← store buf outLoc outVal;
      if outputPartialLastByte then
        flush (Z.to_nat workBits) dst2Pow work workBits buf' (S outLoc)
      else Ret buf'
  end.

(** The public entry point.  Every call of the helper consumes [dst2Pow >= 1]
    of the [srcLen * src2Pow] input bits, which bounds the depth. *)
Definition changeBase2Inline (buf : list Z) (srcLen : nat)
    (src2Pow dst2Pow : Z) (outputPartialLastByte : bool) : outcome (list Z) :=
  changeBase2Inline_rec (srcLen * Z.to_nat src2Pow) buf 0 srcLen
    src2Pow dst2Pow outputPartialLastByte 0 0 None.

(** ** The filename alphabets *)

Definition chr (c : ascii) : Z := Z.of_N (N_of_ascii c).

(** A [char] array initialised from a string literal: its characters and the
    terminating NUL. *)
Fixpoint codes (s : string) : list Z :=
  match s with
  | EmptyString => []
  | String c s' => chr c :: codes s'
  end.

Definition c_string (s : string) : list Z := codes s ++ [0].

Definition B642AsciiTable : list Z := c_string ",-0123456789".

(** The body of the loop of [B64ToAscii], before the store. *)
Definition B64ToAscii_char (ch : Z) : outcome Z :=
  if ch >? 11 then
    if ch >? 37 then Ret (ch + (chr "a" - 38))
    else Ret (ch + (chr "A" - 12))
  else load B642AsciiTable (Z.to_nat ch).

(** [for (int offset = 0; offset < length; ++offset)]: [todo] iterations are
    left, starting at [offset]. *)
Fixpoint B64ToAscii_from (todo offset : nat) (buf : list Z)
    : outcome (list Z) :=
  match todo with
  | O => Ret buf
  | S todo' =>
      ch ← load buf offset;
      ch' ← B64ToAscii_char ch;
      buf' ← store buf offset ch';
      B64ToAscii_from todo' (S offset) buf'
  end.

Definition B64ToAscii (buf : list Z) (length : nat) : outcome (list Z) :=
  B64ToAscii_from length 0 buf.

Definition Ascii2B64Table : list Z :=
  c_string
    "                                            01  23456789:;       ".

(** The body of the loop of [AsciiToB64]; [ch] is a [byte], so the
    arithmetic is modulo 256. *)
Definition AsciiToB64_char (ch : Z) : outcome Z :=
  if ch >=? chr "A" then
    if ch >=? chr "a" then Ret (byte_of (ch + (38 - chr "a")))
    else Ret (byte_of (ch + (12 - chr "A")))
  else
    t ← load Ascii2B64Table (Z.to_nat ch);
    Ret (byte_of (t - chr "0")).

(** [AsciiToB64(byte *out, const byte *in, int length)]: [out] and [inp] are
    offsets into one memory, so that the in-place call ([out == in]) is an
    instance. *)
Fixpoint AsciiToB64_to (length : nat) (mem : list Z) (out inp : nat)
    : outcome (list Z) :=
  match length with
  | O => Ret mem
  | S length' =>
      ch ← load mem inp;
      ch' ← AsciiToB64_char ch;
      mem' ← store mem out ch';
      AsciiToB64_to length' mem' (S out) (S inp)
  end.

(** [AsciiToB64(byte *in, int length)] *)
Definition AsciiToB64 (buf : list Z) (length : nat) : outcome (list Z) :=
  AsciiToB64_to length buf 0 0.

Definition B32ToAscii_char (ch : Z) : Z :=
  if (ch >=? 0) && (ch <? 26) then ch + chr "A"
  else ch + (chr "2" - 26).

Fixpoint B32ToAscii_from (todo offset : nat) (buf : list Z)
    : outcome (list Z) :=
  match todo with
  | O => Ret buf
  | S todo' =>
      ch ← load buf offset;
      buf' ← store buf offset (B32ToAscii_char ch);
      B32ToAscii_from todo' (S offset) buf'
  end.

Definition B32ToAscii (buf : list Z) (len : nat) : outcome (list Z) :=
  B32ToAscii_from len 0 buf.

(** [toupper] of <ctype.h> in the "C" locale. *)
Definition toupper (c : Z) : Z :=
  if (chr "a" <=? c) && (c <=? chr "z") then c - 32 else c.

Definition AsciiToB32_char (ch : Z) : Z :=
  let lch := toupper ch in
  if lch >=? chr "A" then lch - chr "A"
  else lch + (26 - chr "2").

Fixpoint AsciiToB32_to (length : nat) (mem : list Z) (out inp : nat)
    : outcome (list Z) :=
  match length with
  | O => Ret mem
  | S length' =>
      ch ← load mem inp;
      mem' ← store mem out (AsciiToB32_char ch);
      AsciiToB32_to length' mem' (S out) (S inp)
  end.

Definition AsciiToB32 (buf : list Z) (length : nat) : outcome (list Z) :=
  AsciiToB32_to length buf 0 0.

(** ** The standard base-64 decoder *)

Definition WHITESPACE : Z := 64.
Definition EQUALS : Z := 65.
Definition INVALID : Z := 66.

Definition d : list Z :=
  [ 66;66;66;66;66;66;66;66;66;64;
    66;66;66;66;66;66;66;66;66;66;
    66;66;66;66;66;66;66;66;66;66;
    66;66;66;66;66;66;66;66;66;66;
    66;66;66;62;66;66;66;63;52;53;

    54;55;56;57;58;59;60;61;66;66;
    66;65;66;66;66; 0; 1; 2; 3; 4;
     5; 6; 7; 8; 9;10;11;12;13;14;
    15;16;17;18;19;20;21;22;23;24;
    25;66;66;66;66;66;66;26;27;28;

    29;30;31;32;33;34;35;36;37;38;
    39;40;41;42;43;44;45;46;47;48;
    49;50;51 ].

(** The [while (in < end)] loop.  [out] collects, in order, the bytes stored
    through [*out++]; the result is the return value if the loop returns,
    and the state at the exit of the loop otherwise. *)
Fixpoint B64StandardDecode_loop (inp : list Z) (buf : Z) (out : list Z)
    : outcome (bool * Z * list Z) :=
  match inp with
  | [] => Ret (true, buf, out)
  | v :: inp' =>
      if v >? chr "z" then Ret (false, buf, out)
      else
        c ← load d (Z.to_nat v);
        if c =? WHITESPACE then B64StandardDecode_loop inp' buf out
        else if c =? INVALID then Ret (false, buf, out)
        else if c =? EQUALS then Ret (true, buf, out)
        else
          let buf := Z.lor (ulong_of (Z.shiftl buf 6)) c in
          if negb (Z.land buf 16777216 =? 0) then
            B64StandardDecode_loop inp' 1
              (out ++ [byte_of (Z.shiftr buf 16); byte_of (Z.shiftr buf 8);
                       byte_of buf])
          else B64StandardDecode_loop inp' buf out
  end.

(** The result is the return value and the bytes stored through [out]. *)
Definition B64StandardDecode (inp : list Z) : outcome (bool * list Z) :=
  '(ok, buf, out) ← B64StandardDecode_loop inp 1 [];
  if negb ok then Ret (false, out)
  else if negb (Z.land buf 262144 =? 0) then
    Ret (true, out ++ [byte_of (Z.shiftr buf 10); byte_of (Z.shiftr buf 2)])
  else if negb (Z.land buf 4096 =? 0) then
    Ret (true, out ++ [byte_of (Z.shiftr buf 4)])
  else Ret (true, out).

(** ** The null name codec *)

(** [memcpy(dest, src, n)] on two separate arrays. *)
Definition memcpy (dest src : list Z) (n : nat) : outcome (list Z) :=
  if decide (n <= length src /\ n <= length dest)%nat
  then Ret (take n src ++ drop n dest)
  else OutOfBounds.

Module NullNameIO.

Definition maxEncodedNameLen (plaintextNameLen : Z) : Z := plaintextNameLen.

Definition maxDecodedNameLen (encodedNameLen : Z) : Z := encodedNameLen.

(** [iv] is the content of the slot [*iv] ([None] for a null pointer); the
    result is the return value, the slot after the call and the array
    [encodedName]. *)
Definition encodeName (plaintextName : list Z) (length : nat)
    (iv : option Z) (encodedName : list Z)
    : outcome (Z * option Z * list Z) :=
  encodedName' ← memcpy encodedName plaintextName length;
  Ret (Z.of_nat length, iv, encodedName').

Definition decodeName (encodedName : list Z) (length : nat)
    (iv : option Z) (plaintextName : list Z)
    : outcome (Z * option Z * list Z) :=
  plaintextName' ← memcpy plaintextName encodedName length;
  Ret (Z.of_nat length, iv, plaintextName').

End NullNameIO.

(** * Vocabulary of the specification *)

(** ** Array loops *)

(** The common shape of the four alphabet loops: [todo] cells are rewritten
    with [body], starting at [offset]. *)
Fixpoint update_from (body : Z -> outcome Z) (todo offset : nat)
    (buf : list Z) : outcome (list Z) :=
  match todo with
  | O => Ret buf
  | S todo' =>
      ch ← load buf offset;
      ch' ← body ch;
      buf' ← store buf offset ch';
      update_from body todo' (S offset) buf'
  end.

(** ** Alphabets *)

Definition b64_alphabet : list Z :=
  codes ",-0123456789ABCDEFGHIJKLMNOPQRSTUVWXYZabcdefghijklmnopqrstuvwxyz".

(** The character at index [v] of the base-64 alphabet. *)
Definition b64_letter (v : Z) : Z := nth (Z.to_nat v) b64_alphabet 0.

Definition from_ret (m : outcome Z) : Z :=
  match m with Ret v => v | _ => 0 end.

Definition b64_check (v : Z) : bool :=
  match B64ToAscii_char v, AsciiToB64_char (b64_letter v) with
  | Ret c, Ret v' =>
      (c =? b64_letter v) && (v' =? v) && (0 <=? c) && (c <? 256)
      && negb (c =? chr "/") && negb (c =? chr ".")
  | _, _ => false
  end.

(** The base-32 alphabet [A..Z2..7]. *)
Definition b32_letter (v : Z) : Z :=
  if v <? 26 then chr "A" + v else chr "2" + (v - 26).

(** The lowercase form of an uppercase letter. *)
Definition lowercase (c : Z) : Z :=
  if (chr "A" <=? c) && (c <=? chr "Z") then c + 32 else c.

Definition b32_check (v : Z) : bool :=
  (B32ToAscii_char v =? b32_letter v)
  && (AsciiToB32_char (b32_letter v) =? v)
  && (AsciiToB32_char (lowercase (b32_letter v)) =? v)
  && (0 <=? b32_letter v) && (b32_letter v <? 256).

(** ** Standard base-64 input *)

(** A character of the standard base-64 alphabet [A-Za-z0-9+/]. *)
Definition is_b64_standard (v : Z) : bool :=
  ((chr "A" <=? v) && (v <=? chr "Z"))
  || ((chr "a" <=? v) && (v <=? chr "z"))
  || ((chr "0" <=? v) && (v <=? chr "9"))
  || (v =? chr "+") || (v =? chr "/").

(** The bytes the table [d] classifies as [WHITESPACE]: the horizontal tab
    only. *)
Definition is_skipped (v : Z) : bool := v =? 9.

(** No byte before the first '=' is anything but an alphabet character or a
    skipped byte. *)
Fixpoint accepted (inp : list Z) : bool :=
  match inp with
  | [] => true
  | v :: inp' =>
      if v =? chr "=" then true
      else if is_skipped v || is_b64_standard v then accepted inp'
      else false
  end.

Definition d_check (v : Z) : bool :=
  if v >? chr "z" then
    negb (v =? chr "=") && negb (is_skipped v) && negb (is_b64_standard v)
  else
    match load d (Z.to_nat v) with
    | Ret c =>
        if c =? WHITESPACE then negb (v =? chr "=") && is_skipped v
        else if c =? INVALID then
          negb (v =? chr "=") && negb (is_skipped v)
          && negb (is_b64_standard v)
        else if c =? EQUALS then v =? chr "="
        else negb (v =? chr "=") && is_b64_standard v
    | _ => false
    end.

(** ** Bit streams and symbol counts *)

(** The first [m] symbols of [b] bits of the number [V], low bits first. *)
Fixpoint digits (b : Z) (m : nat) (V : Z) : list Z :=
  match m with
  | O => []
  | S m' => Z.land V (mask_of b) :: digits b m' (Z.shiftr V b)
  end.

(** The number whose bits are the symbols of [src], each shifted to its
    place: the symbol of index [i] starts at bit [k + a * i]. *)
Fixpoint pack (a k : Z) (src : list Z) : Z :=
  match src with
  | [] => 0
  | s :: src' => Z.lor (Z.shiftl s k) (pack a (k + a) src')
  end.

(** The number of complete [b]-bit symbols in [n] symbols of [a] bits, and
    the number of bits left over. *)
Definition full_symbols (a b : Z) (n : nat) : nat :=
  Z.to_nat (Z.of_nat n * a / b).

Definition leftover_bits (a b : Z) (n : nat) : Z := (Z.of_nat n * a) mod b.

(** Whether the final, partial symbol is stored: [workBits && ((dst -
    origDst) < dstLen)]. *)
Definition partial_stored (a b : Z) (n : nat) (dstLen : Z) : bool :=
  negb (leftover_bits a b n =? 0) && (Z.of_nat (full_symbols a b n) <? dstLen).

Definition stored_symbols (a b : Z) (n : nat) (dstLen : Z) : nat :=
  (full_symbols a b n + if partial_stored a b n dstLen then 1 else 0)%nat.

(** The number of symbols that hold all the bits: the quotient rounded up. *)
Definition all_symbols (a b : Z) (n : nat) : nat :=
  Z.to_nat ((Z.of_nat n * a + b - 1) / b).

(** The number of symbols the helper stores when [T >= 1] bits are ahead of
    it: all of them with the flag set; with the flag clear, those complete
    before the last input symbol is read, and one more. *)
Definition inline_symbols (a b : Z) (flag : bool) (T : Z) : nat :=
  S (Z.to_nat ((T - (if flag then 1 else a)) / b)).

(** ** Standard base-64 text *)

Definition b64_standard_alphabet : list Z :=
  codes "ABCDEFGHIJKLMNOPQRSTUVWXYZabcdefghijklmnopqrstuvwxyz0123456789+/".

Definition b64_standard_letter (v : Z) : Z :=
  nth (Z.to_nat v) b64_standard_alphabet 0.

(** The standard encoding of a byte string: three bytes give four
    characters, most significant bits first; a last group of one or two
    bytes gives two or three characters, followed by '=' signs when [pad]
    is set. *)
Fixpoint b64_standard_encode (pad : bool) (x : list Z) : list Z :=
  match x with
  | [] => []
  | [a] =>
      [b64_standard_letter (a / 4); b64_standard_letter (a mod 4 * 16)]
      ++ (if pad then [chr "="; chr "="] else [])
  | [a; b] =>
      [b64_standard_letter (a / 4);
       b64_standard_letter (a mod 4 * 16 + b / 16);
       b64_standard_letter (b mod 16 * 4)]
      ++ (if pad then [chr "="] else [])
  | a :: b :: c :: x' =>
      [b64_standard_letter (a / 4);
       b64_standard_letter (a mod 4 * 16 + b / 16);
       b64_standard_letter (b mod 16 * 4 + c / 64);
       b64_standard_letter (c mod 64)]
      ++ b64_standard_encode pad x'
  end.

Definition b64_standard_check (v : Z) : bool :=
  negb (b64_standard_letter v >? chr "z")
  && match load d (Z.to_nat (b64_standard_letter v)) with
     | Ret c => c =? v
     | _ => false
     end.

(** [B64StandardDecode] entered with [buf] and the bytes [out] already
    stored. *)
Definition B64StandardDecode_from (buf : Z) (out inp : list Z)
    : outcome (bool * list Z) :=
  '(ok, buf, out) ← B64StandardDecode_loop inp buf out;
  if negb ok then Ret (false, out)
  else if negb (Z.land buf 262144 =? 0) then
    Ret (true, out ++ [byte_of (Z.shiftr buf 10); byte_of (Z.shiftr buf 2)])
  else if negb (Z.land buf 4096 =? 0) then
    Ret (true, out ++ [byte_of (Z.shiftr buf 4)])
  else Ret (true, out).

(** ** Text that decodes *)

(** The common shape of [AsciiToB64] and [AsciiToB32] with separate
    pointers: [length] cells are read from [inp] on and the results of
    [body] stored from [out] on. *)
Fixpoint convert_to (body : Z -> outcome Z) (length : nat) (mem : list Z)
    (out inp : nat) : outcome (list Z) :=
  match length with
  | O => Ret mem
  | S length' =>
      ch ← load mem inp;
      ch' ← body ch;
      mem' ← store mem out ch';
      convert_to body length' mem' (S out) (S inp)
  end.

Definition is_b64_text (c : Z) : bool := existsb (Z.eqb c) b64_alphabet.

Definition b64_text_check (c : Z) : bool :=
  match AsciiToB64_char c with
  | Ret v =>
      (0 <=? v) && (v <? 256)
      && (negb (is_b64_text c)
          || ((v <=? 63)
              && match B64ToAscii_char v with
                 | Ret c' => c' =? c
                 | _ => false
                 end))
  | _ => false
  end.

(** A letter in either case or a digit 2..7. *)
Definition is_b32_text (c : Z) : bool :=
  ((chr "A" <=? c) && (c <=? chr "Z"))
  || ((chr "a" <=? c) && (c <=? chr "z"))
  || ((chr "2" <=? c) && (c <=? chr "7")).

Definition b32_text_check (c : Z) : bool :=
  negb (is_b32_text c)
  || ((0 <=? AsciiToB32_char c) && (AsciiToB32_char c <=? 31)
      && (B32ToAscii_char (AsciiToB32_char c) =? toupper c)
      && (0 <=? toupper c) && (toupper c <? 256)).

(** ** The state of the standard decoder *)

(** A result of the decoder with the bytes [x] stored before its own. *)
Definition with_prefix (x : list Z) (r : outcome (bool * list Z))
    : outcome (bool * list Z) :=
  match r with
  | Ret (ok, out) => Ret (ok, x ++ out)
  | OutOfBounds => OutOfBounds
  | Diverges => Diverges
  end.

(** The number of characters held in [buf]: the marker bit is at 6 times
    that number. *)
Definition pending (buf : Z) : Z :=
  if buf <? 64 then 0
  else if buf <? 4096 then 1
  else if buf <? 262144 then 2
  else 3.

(** [buf] is the marker bit followed by zero to three characters. *)
Definition buf_ok (buf : Z) : Prop :=
  buf = 1 \/ 64 <= buf < 128 \/ 4096 <= buf < 8192
  \/ 262144 <= buf < 524288.

Definition d_value_check (v : Z) : bool :=
  (v >? chr "z")
  || match load d (Z.to_nat v) with
     | Ret c => (0 <=? c) && (c <=? 66)
     | _ => false
     end.

(** * Properties *)

(** ** Loads and stores in the middle of an array *)

Lemma load_middle (pre post : list Z) (v : Z) :
  load (pre ++ v :: post) (length pre) = Ret v.
Proof. unfold load. by rewrite list_lookup_middle. Qed.

Lemma store_middle (pre post : list Z) (v w : Z) :
  store (pre ++ v :: post) (length pre) w
  = Ret ((pre ++ [byte_of w]) ++ post).
Proof.
  unfold store. rewrite decide_True.
  - f_equal. rewrite insert_app_r_alt by lia.
    rewrite Nat.sub_diag. simpl. by rewrite <- app_assoc.
  - rewrite length_app. simpl. lia.
Qed.

Lemma store_at (pre post : list Z) (i : nat) (v w : Z) :
  length pre = i ->
  store (pre ++ v :: post) i w = Ret ((pre ++ [byte_of w]) ++ post).
Proof. intros <-. apply store_middle. Qed.

Lemma length_snoc (pre : list Z) (v : Z) :
  length (pre ++ [v]) = S (length pre).
Proof. rewrite length_app. simpl. lia. Qed.

Lemma byte_of_small (v : Z) : is_byte v -> byte_of v = v.
Proof. unfold is_byte, byte_of. intros H. by apply Z.mod_small. Qed.

(** ** Lists whose elements satisfy a property *)

Lemma map_ext_on {A B} (P : A -> Prop) (g h : A -> B) (l : list A) :
  Forall P l -> (forall v, P v -> g v = h v) -> map g l = map h l.
Proof.
  intros Hl Hgh. induction Hl as [| v l Hv _ IH]; [done |].
  cbn. by rewrite IH, Hgh.
Qed.

Lemma Forall_on {A} (P Q : A -> Prop) (l : list A) :
  Forall P l -> (forall v, P v -> Q v) -> Forall Q l.
Proof. intros Hl HPQ. induction Hl; constructor; auto. Qed.

(** ** Checking a property of every value of a finite range *)

Lemma range_forallb (P : Z -> bool) (n : nat) :
  forallb P (map Z.of_nat (seq 0 n)) = true ->
  forall v, 0 <= v < Z.of_nat n -> P v = true.
Proof.
  intros H v Hv. rewrite forallb_forall in H. apply H.
  apply in_map_iff. exists (Z.to_nat v). split; [lia |].
  apply in_seq. lia.
Qed.

(** ** Loops that rewrite an array cell by cell *)

Section InPlace.

Variable body : Z -> outcome Z.
Variable f : Z -> Z.

Lemma update_from_map (seg pre post : list Z) :
  Forall (fun v => body v = Ret (f v)) seg ->
  update_from body (length seg) (length pre) (pre ++ seg ++ post)
  = Ret (pre ++ map (fun v => byte_of (f v)) seg ++ post).
Proof.
  intros Hseg. revert pre.
  induction Hseg as [| v seg Hv _ IH]; intros pre; [done |].
  cbn [length update_from app map].
  rewrite load_middle. cbn. rewrite Hv. cbn.
  rewrite store_middle. cbn.
  rewrite <- length_snoc with (v := byte_of (f v)).
  rewrite IH. by rewrite <- app_assoc.
Qed.

Lemma update_from_start (seg post : list Z) :
  Forall (fun v => body v = Ret (f v)) seg ->
  update_from body (length seg) 0 (seg ++ post)
  = Ret (map (fun v => byte_of (f v)) seg ++ post).
Proof. intros Hseg. exact (update_from_map seg [] post Hseg). Qed.

End InPlace.

Lemma B64ToAscii_from_update todo offset buf :
  B64ToAscii_from todo offset buf = update_from B64ToAscii_char todo offset buf.
Proof.
  revert offset buf. induction todo as [| todo IH]; intros; [done |].
  cbn. destruct (load buf offset); [| done | done]. cbn.
  destruct (B64ToAscii_char a); [| done | done]. cbn.
  destruct (store buf offset a0); [| done | done]. cbn. apply IH.
Qed.

Lemma AsciiToB64_to_update length offset mem :
  AsciiToB64_to length mem offset offset
  = update_from AsciiToB64_char length offset mem.
Proof.
  revert offset mem. induction length as [| n IH]; intros; [done |].
  cbn. destruct (load mem offset); [| done | done]. cbn.
  destruct (AsciiToB64_char a); [| done | done]. cbn.
  destruct (store mem offset a0); [| done | done]. cbn. apply IH.
Qed.

Lemma B32ToAscii_from_update todo offset buf :
  B32ToAscii_from todo offset buf
  = update_from (fun ch => Ret (B32ToAscii_char ch)) todo offset buf.
Proof.
  revert offset buf. induction todo as [| todo IH]; intros; [done |].
  cbn. destruct (load buf offset); [| done | done]. cbn.
  destruct (store buf offset _); [| done | done]. cbn. apply IH.
Qed.

Lemma AsciiToB32_to_update length offset mem :
  AsciiToB32_to length mem offset offset
  = update_from (fun ch => Ret (AsciiToB32_char ch)) length offset mem.
Proof.
  revert offset mem. induction length as [| n IH]; intros; [done |].
  cbn. destruct (load mem offset); [| done | done]. cbn.
  destruct (store mem offset _); [| done | done]. cbn. apply IH.
Qed.

(** ** The filename alphabets *)

Lemma b64_check_all v : 0 <= v <= 63 -> b64_check v = true.
Proof.
  intros Hv. apply (range_forallb b64_check 64); [by vm_compute | lia].
Qed.

Lemma b64_check_elim v :
  0 <= v <= 63 ->
  B64ToAscii_char v = Ret (b64_letter v)
  /\ AsciiToB64_char (b64_letter v) = Ret v
  /\ is_byte (b64_letter v)
  /\ b64_letter v <> chr "/" /\ b64_letter v <> chr ".".
Proof.
  intros Hv. pose proof (b64_check_all v Hv) as H. unfold b64_check in H.
  destruct (B64ToAscii_char v) as [c | |]; [| done | done].
  destruct (AsciiToB64_char (b64_letter v)) as [v' | |]; [| done | done].
  unfold is_byte.
  repeat (apply andb_prop in H; destruct H as [H ?]).
  assert (c = b64_letter v) as -> by lia.
  assert (v' = v) as -> by lia.
  repeat split; try done; lia.
Qed.

(** C4: for 6-bit symbols, [B64ToAscii] writes the character at index [v] of
    the alphabet [,-0123456789A..Za..z] for every symbol [v] of the buffer, so
    neither '/' nor '.' occurs in its output, and [AsciiToB64] applied to the
    result restores the buffer. *)
Theorem B64_alphabet_inverse (syms rest : list Z) :
  Forall (fun v => 0 <= v <= 63) syms ->
  let text := map b64_letter syms in
  B64ToAscii (syms ++ rest) (length syms) = Ret (text ++ rest)
  /\ Forall (fun c => c <> chr "/" /\ c <> chr ".") text
  /\ AsciiToB64 (text ++ rest) (length syms) = Ret (syms ++ rest).
Proof.
  intros Hsyms text. split; [| split].
  - unfold B64ToAscii. rewrite B64ToAscii_from_update.
    rewrite (update_from_start B64ToAscii_char b64_letter syms rest).
    + do 2 f_equal. apply (map_ext_on _ _ _ _ Hsyms). intros v Hv.
      apply byte_of_small, b64_check_elim, Hv.
    + apply (Forall_on _ _ _ Hsyms). intros v Hv.
      apply b64_check_elim, Hv.
  - subst text. apply Forall_map.
    apply (Forall_on _ _ _ Hsyms). intros v Hv.
    split; apply b64_check_elim, Hv.
  - unfold AsciiToB64. rewrite AsciiToB64_to_update.
    replace (length syms) with (length text) by apply length_map.
    rewrite (update_from_start AsciiToB64_char
               (fun c => from_ret (AsciiToB64_char c)) text rest).
    + do 2 f_equal. subst text. rewrite map_map.
      rewrite <- (map_id syms) at 2.
      apply (map_ext_on _ _ _ _ Hsyms). intros v Hv.
      destruct (b64_check_elim v Hv) as (_ & -> & _).
      apply byte_of_small. unfold is_byte, from_ret. lia.
    + subst text. apply Forall_map.
      apply (Forall_on _ _ _ Hsyms). intros v Hv.
      by destruct (b64_check_elim v Hv) as (_ & -> & _).
Qed.

Lemma B64_alphabet_inverse_witness :
  B64ToAscii [0; 11; 12; 37; 38; 63; 200] 6 = Ret [44; 57; 65; 90; 97; 122; 200]
  /\ AsciiToB64 [44; 57; 65; 90; 97; 122; 200] 6
     = Ret [0; 11; 12; 37; 38; 63; 200].
Proof.
  destruct (B64_alphabet_inverse [0; 11; 12; 37; 38; 63] [200])
    as (H1 & _ & H2).
  - repeat constructor; lia.
  - split; [exact H1 | exact H2].
Defined.

Lemma b32_check_elim v :
  0 <= v <= 31 ->
  B32ToAscii_char v = b32_letter v
  /\ AsciiToB32_char (b32_letter v) = v
  /\ AsciiToB32_char (lowercase (b32_letter v)) = v
  /\ is_byte (b32_letter v).
Proof.
  intros Hv.
  assert (b32_check v = true) as H
    by (apply (range_forallb b32_check 32); [by vm_compute | lia]).
  unfold b32_check in H. unfold is_byte.
  repeat (apply andb_prop in H; destruct H as [H ?]).
  repeat split; lia.
Qed.

(** C5: for 5-bit symbols, [B32ToAscii] writes 'A'+v for v in 0..25 and
    '2'+(v-26) for v in 26..31; [AsciiToB32] maps the result back to the
    symbols, and does so as well when every letter is given in lowercase. *)
Theorem B32_alphabet_inverse (syms rest : list Z) :
  Forall (fun v => 0 <= v <= 31) syms ->
  let text := map b32_letter syms in
  B32ToAscii (syms ++ rest) (length syms) = Ret (text ++ rest)
  /\ AsciiToB32 (text ++ rest) (length syms) = Ret (syms ++ rest)
  /\ AsciiToB32 (map lowercase text ++ rest) (length syms)
     = Ret (syms ++ rest).
Proof.
  intros Hsyms text. split; [| split].
  - unfold B32ToAscii. rewrite B32ToAscii_from_update.
    rewrite (update_from_start _ B32ToAscii_char syms rest).
    + do 2 f_equal. apply (map_ext_on _ _ _ _ Hsyms). intros v Hv.
      destruct (b32_check_elim v Hv) as (-> & _ & _ & Hb).
      by apply byte_of_small.
    + by apply Forall_forall.
  - unfold AsciiToB32. rewrite AsciiToB32_to_update.
    replace (length syms) with (length text) by apply length_map.
    rewrite (update_from_start _ AsciiToB32_char text rest).
    + do 2 f_equal. subst text. rewrite map_map.
      rewrite <- (map_id syms) at 2.
      apply (map_ext_on _ _ _ _ Hsyms). intros v Hv.
      destruct (b32_check_elim v Hv) as (_ & -> & _ & _).
      apply byte_of_small. unfold is_byte. lia.
    + by apply Forall_forall.
  - unfold AsciiToB32. rewrite AsciiToB32_to_update.
    replace (length syms) with (length (map lowercase text))
      by (subst text; by rewrite !length_map).
    rewrite (update_from_start _ AsciiToB32_char (map lowercase text) rest).
    + do 2 f_equal. subst text. rewrite !map_map.
      rewrite <- (map_id syms) at 2.
      apply (map_ext_on _ _ _ _ Hsyms). intros v Hv.
      destruct (b32_check_elim v Hv) as (_ & _ & -> & _).
      apply byte_of_small. unfold is_byte. lia.
    + by apply Forall_forall.
Qed.

Lemma B32_alphabet_inverse_witness :
  B32ToAscii [0; 25; 26; 31; 77] 4 = Ret [65; 90; 50; 55; 77]
  /\ AsciiToB32 [65; 90; 50; 55; 77] 4 = Ret [0; 25; 26; 31; 77]
  /\ AsciiToB32 [97; 122; 50; 55; 77] 4 = Ret [0; 25; 26; 31; 77].
Proof.
  apply (B32_alphabet_inverse [0; 25; 26; 31] [77]).
  repeat constructor; lia.
Defined.

(** ** The null name codec *)

Lemma memcpy_ok (dest src : list Z) (n : nat) :
  (n <= length src)%nat -> (n <= length dest)%nat ->
  memcpy dest src n = Ret (take n src ++ drop n dest).
Proof. intros Hs Hd. unfold memcpy. by rewrite decide_True. Qed.

(** C6: the null codec is the identity.  [encodeName] copies the [n] bytes of
    the name into the output and returns [n]; [decodeName] applied to that
    output gives the same bytes back and returns [n]; both length bounds
    return their argument. *)
Theorem null_codec_identity (name tail encodedName plaintextName : list Z)
    (iv iv' : option Z) :
  let n := length name in
  (n <= length encodedName)%nat ->
  (n <= length plaintextName)%nat ->
  NullNameIO.encodeName (name ++ tail) n iv encodedName
  = Ret (Z.of_nat n, iv, name ++ drop n encodedName)
  /\ NullNameIO.decodeName (name ++ drop n encodedName) n iv' plaintextName
     = Ret (Z.of_nat n, iv', name ++ drop n plaintextName)
  /\ NullNameIO.maxEncodedNameLen (Z.of_nat n) = Z.of_nat n
  /\ NullNameIO.maxDecodedNameLen (Z.of_nat n) = Z.of_nat n.
Proof.
  intros n He Hp. subst n.
  unfold NullNameIO.encodeName, NullNameIO.decodeName.
  rewrite !memcpy_ok; try done; rewrite ?length_app; try lia.
  by rewrite !take_app_length.
Qed.

Lemma null_codec_identity_witness :
  NullNameIO.encodeName [97; 46; 116; 0] 3 (Some 5) [1; 2; 3; 4; 5]
  = Ret (3, Some 5, [97; 46; 116; 4; 5])
  /\ NullNameIO.decodeName [97; 46; 116; 4; 5] 3 None [9; 9; 9; 9]
     = Ret (3, None, [97; 46; 116; 9]).
Proof.
  destruct (null_codec_identity [97; 46; 116] [0] [1; 2; 3; 4; 5]
              [9; 9; 9; 9] (Some 5) None) as (H1 & H2 & _); cbn; [lia | lia |].
  split; [exact H1 | exact H2].
Defined.

(** C7: the null codec never touches the IV slot.  Whenever the copy is
    within the arrays, [encodeName] and [decodeName] return with the slot
    holding what it held before, and the returned length and output bytes
    are the same for every IV. *)
Theorem null_codec_iv_frame (src dest : list Z) (n : nat) :
  (n <= length src)%nat ->
  (n <= length dest)%nat ->
  exists out,
    forall iv,
      NullNameIO.encodeName src n iv dest = Ret (Z.of_nat n, iv, out)
      /\ NullNameIO.decodeName src n iv dest = Ret (Z.of_nat n, iv, out).
Proof.
  intros Hs Hd. exists (take n src ++ drop n dest). intros iv.
  unfold NullNameIO.encodeName, NullNameIO.decodeName.
  by rewrite memcpy_ok.
Qed.

Lemma null_codec_iv_frame_witness :
  exists out,
    forall iv,
      NullNameIO.encodeName [1; 2; 3] 2 iv [7; 8; 9] = Ret (2, iv, out)
      /\ NullNameIO.decodeName [1; 2; 3] 2 iv [7; 8; 9] = Ret (2, iv, out).
Proof. apply (null_codec_iv_frame [1; 2; 3] [7; 8; 9] 2); cbn; lia. Defined.

(** ** changeBase2Inline on an empty input *)

(** C10: with [srcLen = 0] the public [changeBase2Inline] stores exactly one
    byte, the value 0, in the first cell of the buffer and nothing else,
    whatever the widths and the flag (a negative [dst2Pow], for which the
    shifts are undefined, is left out when the flag is set). *)
Theorem changeBase2Inline_empty_input (buf : list Z)
    (src2Pow dst2Pow : Z) (outputPartialLastByte : bool) :
  buf <> [] ->
  0 <= dst2Pow \/ outputPartialLastByte = false ->
  changeBase2Inline buf 0 src2Pow dst2Pow outputPartialLastByte
  = Ret (<[0%nat := 0]> buf).
Proof.
  intros Hbuf Hb. destruct buf as [| v buf]; [done |].
  unfold changeBase2Inline. cbn [Nat.mul changeBase2Inline_rec gather].
  cbn [mbind outcome_bind obind].
  rewrite Z.land_0_l, Z.shiftr_0_l. change (byte_of 0) with 0.
  change (store (v :: buf) 0 0) with (Ret (0 :: buf)).
  cbn [obind]. destruct outputPartialLastByte; [| done].
  destruct Hb as [Hb | Hb]; [| done].
  replace (Z.to_nat (0 - dst2Pow)) with 0%nat by lia.
  cbn [flush]. destruct (0 - dst2Pow >? 0) eqn:E; [lia | done].
Qed.

Lemma changeBase2Inline_empty_input_witness :
  changeBase2Inline [7; 9] 0 8 6 true = Ret [0; 9]
  /\ changeBase2Inline [7; 9] 0 6 8 false = Ret [0; 9].
Proof.
  split.
  - apply (changeBase2Inline_empty_input [7; 9] 8 6 true); [done | lia].
  - apply (changeBase2Inline_empty_input [7; 9] 6 8 false); [done | by right].
Defined.

(** ** The standard base-64 decoder *)

Lemma d_check_all v : is_byte v -> d_check v = true.
Proof.
  intros Hv. apply (range_forallb d_check 256); [by vm_compute | exact Hv].
Qed.

Lemma B64StandardDecode_loop_accepted (inp : list Z) :
  Forall is_byte inp ->
  forall buf out, exists buf' out',
    B64StandardDecode_loop inp buf out = Ret (accepted inp, buf', out').
Proof.
  induction 1 as [| v inp Hv _ IH]; intros buf out; [by eexists _, _ |].
  pose proof (d_check_all v Hv) as Hd. unfold d_check in Hd.
  cbn [B64StandardDecode_loop accepted].
  destruct (v >? chr "z").
  - apply andb_prop in Hd as [Hd H3]. apply andb_prop in Hd as [H1 H2].
    apply negb_true_iff in H1, H2, H3. rewrite H1, H2, H3. by eexists _, _.
  - destruct (load d (Z.to_nat v)) as [c | |]; [| done | done].
    cbn [mbind outcome_bind obind].
    destruct (c =? WHITESPACE).
    { apply andb_prop in Hd as [H1 H2]. apply negb_true_iff in H1.
      rewrite H1, H2. apply IH. }
    destruct (c =? INVALID).
    { apply andb_prop in Hd as [Hd H3]. apply andb_prop in Hd as [H1 H2].
      apply negb_true_iff in H1, H2, H3. rewrite H1, H2, H3.
      by eexists _, _. }
    destruct (c =? EQUALS).
    { rewrite Hd. by eexists _, _. }
    apply andb_prop in Hd as [H1 H2]. apply negb_true_iff in H1.
    rewrite H1, H2, orb_true_r.
    destruct (negb _); apply IH.
Qed.

(** What the decoder returns, on every input: [true] exactly when each byte
    before the first '=' is a character of the standard alphabet or a tab. *)
Lemma B64StandardDecode_returns (inp : list Z) :
  Forall is_byte inp ->
  exists out, B64StandardDecode inp = Ret (accepted inp, out).
Proof.
  intros Hinp. unfold B64StandardDecode.
  destruct (B64StandardDecode_loop_accepted inp Hinp 1 []) as (buf & out & ->).
  cbn [mbind outcome_bind obind].
  destruct (accepted inp); cbn [negb]; [| by eexists].
  repeat (destruct (negb _); [by eexists |]). by eexists.
Qed.

(** C3: the decoder does not skip every whitespace byte.  A space, a line
    feed or a carriage return makes it return [false], alone or inside
    otherwise valid data; only the tab is skipped. *)
Theorem B64StandardDecode_whitespace_rejected :
  B64StandardDecode [chr " "] = Ret (false, [])
  /\ B64StandardDecode [10] = Ret (false, [])
  /\ B64StandardDecode [13] = Ret (false, [])
  /\ B64StandardDecode (codes "aGVs bG8=") = Ret (false, [104; 101; 108])
  /\ B64StandardDecode (codes "aGVsbG8=") = Ret (true, [104; 101; 108; 108; 111])
  /\ B64StandardDecode (codes "aGVs" ++ [9] ++ codes "bG8=")
     = Ret (true, [104; 101; 108; 108; 111]).
Proof. repeat split; by vm_compute. Qed.

(** ** The bit stream of changeBase2 *)

Lemma mask_of_ones b : mask_of b = Z.ones b.
Proof. unfold mask_of, Z.ones. lia. Qed.

Lemma testbit_ones n i :
  0 <= n -> Z.testbit (Z.ones n) i = (0 <=? i) && (i <? n).
Proof.
  intros Hn. destruct (Z.leb_spec 0 i).
  - by rewrite Z.testbit_ones_nonneg.
  - by rewrite Z.testbit_neg_r.
Qed.

(** Bitwise equalities: compare the bits of index [i], then decide every
    comparison of indices. *)
Ltac bits_spec :=
  repeat first
    [ rewrite Z.land_spec | rewrite Z.lor_spec
    | rewrite Z.shiftl_spec by lia | rewrite Z.shiftr_spec by lia
    | rewrite testbit_ones by lia ].

Ltac bits i :=
  apply Z.bits_inj'; intros i ?;
  bits_spec;
  repeat match goal with
    | |- context [?x <? ?y] => destruct (Z.ltb_spec x y)
    | |- context [?x <=? ?y] => destruct (Z.leb_spec x y)
    end;
  try lia;
  bits_spec;
  repeat match goal with
    | |- context [Z.testbit ?a ?j] =>
        rewrite (Z.testbit_neg_r a j) by lia
    end;
  rewrite ?andb_true_r, ?andb_false_r, ?orb_false_r, ?orb_false_l;
  try done;
  try (f_equal; lia).

Lemma land_mask_small b v : 0 <= b -> 0 <= v < 2 ^ b -> Z.land v (mask_of b) = v.
Proof.
  intros Hb Hv. rewrite mask_of_ones, Z.land_ones by lia.
  by apply Z.mod_small.
Qed.

Lemma land_mask_range b v : 0 <= b -> 0 <= Z.land v (mask_of b) < 2 ^ b.
Proof.
  intros Hb. rewrite mask_of_ones, Z.land_ones by lia.
  apply Z.mod_pos_bound. lia.
Qed.

Lemma land_mask_byte b v : 0 <= b <= 8 -> is_byte (Z.land v (mask_of b)).
Proof.
  intros Hb. pose proof (land_mask_range b v ltac:(lia)).
  assert (2 ^ b <= 2 ^ 8) by (apply Z.pow_le_mono_r; lia).
  unfold is_byte. lia.
Qed.

Lemma land_lor_shiftl_mask W P k b :
  0 <= b <= k ->
  Z.land (Z.lor W (Z.shiftl P k)) (mask_of b) = Z.land W (mask_of b).
Proof.
  intros Hb. rewrite (mask_of_ones b). bits i.
Qed.

Lemma shiftr_lor_shiftl W P k b :
  0 <= b <= k ->
  Z.shiftr (Z.lor W (Z.shiftl P k)) b = Z.lor (Z.shiftr W b) (Z.shiftl P (k - b)).
Proof.
  intros Hb. rewrite Z.shiftr_lor. f_equal. apply Z.shiftr_shiftl_l. lia.
Qed.

Lemma shiftr_small b v : 0 <= b -> 0 <= v < 2 ^ b -> Z.shiftr v b = 0.
Proof.
  intros Hb Hv. rewrite Z.shiftr_div_pow2 by lia. by apply Z.div_small.
Qed.

Lemma ulong_of_shiftl_byte v k :
  is_byte v -> 0 <= k <= 8 -> ulong_of (Z.shiftl v k) = Z.shiftl v k.
Proof.
  unfold is_byte, ulong_of. intros Hv Hk. apply Z.mod_small.
  rewrite Z.shiftl_mul_pow2 by lia.
  assert (0 < 2 ^ k <= 2 ^ 8) by (split; [| apply Z.pow_le_mono_r]; lia).
  change (2 ^ 8) with 256 in *. change (2 ^ 64) with 18446744073709551616.
  nia.
Qed.

Lemma pack_shiftl a k c src :
  0 <= a -> 0 <= k -> 0 <= c ->
  pack a (k + c) src = Z.shiftl (pack a k src) c.
Proof.
  intros Ha Hk Hc. revert k Hk. induction src as [| s src IH]; intros k Hk.
  - cbn. by rewrite Z.shiftl_0_l.
  - cbn [pack]. rewrite Z.shiftl_lor, Z.shiftl_shiftl by lia. f_equal.
    replace (k + c + a) with (k + a + c) by lia. apply IH. lia.
Qed.

Lemma pack_app a k xs ys :
  pack a k (xs ++ ys)
  = Z.lor (pack a k xs) (pack a (k + a * Z.of_nat (length xs)) ys).
Proof.
  revert k. induction xs as [| x xs IH]; intros k.
  - cbn [app pack length]. rewrite Z.lor_0_l. f_equal. lia.
  - cbn [app pack length]. rewrite IH, Z.lor_assoc. do 2 f_equal. lia.
Qed.

Lemma length_digits b m V : length (digits b m V) = m.
Proof. revert V. induction m as [| m IH]; intros V; [done |]. cbn. by rewrite IH. Qed.

Lemma digits_range b m V :
  0 <= b -> Forall (fun v => 0 <= v < 2 ^ b) (digits b m V).
Proof.
  intros Hb. revert V. induction m as [| m IH]; intros V; constructor.
  - by apply land_mask_range.
  - apply IH.
Qed.

Lemma digits_app b m m' V :
  0 <= b ->
  digits b (m + m') V
  = digits b m V ++ digits b m' (Z.shiftr V (b * Z.of_nat m)).
Proof.
  intros Hb. revert V. induction m as [| m IH]; intros V.
  - cbn [digits app Nat.add]. by rewrite Z.mul_0_r, Z.shiftr_0_r.
  - cbn [digits app Nat.add]. rewrite IH, Z.shiftr_shiftr by lia.
    do 4 f_equal. lia.
Qed.

Lemma digits_lor_high b m W P :
  0 <= b ->
  digits b m (Z.lor W (Z.shiftl P (b * Z.of_nat m))) = digits b m W.
Proof.
  intros Hb. revert W. induction m as [| m IH]; intros W; [done |].
  assert (0 <= b * Z.of_nat m) by nia.
  cbn [digits]. rewrite land_lor_shiftl_mask, shiftr_lor_shiftl by lia.
  f_equal. replace (b * Z.of_nat (S m) - b) with (b * Z.of_nat m) by lia.
  apply IH.
Qed.

Lemma digits_take b n m V :
  (n <= m)%nat -> take n (digits b m V) = digits b n V.
Proof.
  revert m V. induction n as [| n IH]; intros m V Hnm; [by rewrite take_0 |].
  destruct m as [| m]; [lia |]. cbn [digits take]. f_equal. apply IH. lia.
Qed.

Lemma digits_land_ones b n K V :
  0 <= b -> b * Z.of_nat n <= K ->
  digits b n (Z.land V (Z.ones K)) = digits b n V.
Proof.
  intros Hb. revert K V. induction n as [| n IH]; intros K V HK; [done |].
  cbn [digits]. f_equal.
  - assert (0 <= b * Z.of_nat n) by nia.
    rewrite (mask_of_ones b). bits i.
  - transitivity (digits b n (Z.land (Z.shiftr V b) (Z.ones (K - b))));
      [| apply IH; lia].
    assert (0 <= b * Z.of_nat n) by nia.
    f_equal. bits i.
Qed.

Lemma pack_digits b m V :
  0 <= b ->
  pack b 0 (digits b m V) = Z.land V (Z.ones (b * Z.of_nat m)).
Proof.
  intros Hb. revert V. induction m as [| m IH]; intros V.
  - cbn [digits pack]. rewrite Z.mul_0_r. change (Z.ones 0) with 0.
    by rewrite Z.land_0_r.
  - cbn [digits pack]. rewrite (pack_shiftl b 0 b) by lia. rewrite IH.
    assert (0 <= b * Z.of_nat m) by nia.
    rewrite Z.shiftl_0_r, (mask_of_ones b). bits i.

Qed.

Lemma digits_pack a xs :
  0 <= a -> Forall (fun v => 0 <= v < 2 ^ a) xs ->
  digits a (length xs) (pack a 0 xs) = xs.
Proof.
  intros Ha Hxs. induction Hxs as [| x xs Hx _ IH]; [done |].
  cbn [length digits pack]. rewrite (pack_shiftl a 0 a) by lia.
  rewrite Z.shiftl_0_r, land_lor_shiftl_mask, shiftr_lor_shiftl by lia.
  rewrite land_mask_small, shiftr_small by lia.
  by rewrite Z.sub_diag, Z.shiftl_0_r, Z.lor_0_l, IH.
Qed.

(** ** The loops of changeBase2 *)

Lemma geb_true x y : y <= x -> (x >=? y) = true.
Proof. intros H. rewrite Z.geb_leb. by apply Z.leb_le. Qed.

Lemma geb_false x y : x < y -> (x >=? y) = false.
Proof. intros H. rewrite Z.geb_leb. by apply Z.leb_gt. Qed.

Lemma gtb_true x y : y < x -> (x >? y) = true.
Proof. intros H. rewrite Z.gtb_ltb. by apply Z.ltb_lt. Qed.

Lemma gtb_false x y : x <= y -> (x >? y) = false.
Proof. intros H. rewrite Z.gtb_ltb. by apply Z.ltb_ge. Qed.

Lemma mod_sub_self x y : y <> 0 -> (x - y) mod y = x mod y.
Proof.
  intros Hy. replace (x - y) with (x + (-1) * y) by lia.
  apply Z_mod_plus_full.
Qed.

Lemma div_sub_self x y : y <> 0 -> (x - y) / y = x / y - 1.
Proof.
  intros Hy. replace (x - y) with (x + (-1) * y) by lia.
  rewrite Z_div_plus_full by done. lia.
Qed.

Lemma bind_ret {A B} (x : A) (k : A -> outcome B) : (Ret x ≫= k) = k x.
Proof. done. Qed.

Section ChangeBase2.

Variables a b : Z.
Hypothesis Ha : 1 <= a <= 8.
Hypothesis Hb : 1 <= b <= 8.

(** The inner loop stores the [workBits / b] complete symbols of [work]. *)
Lemma drain_spec (seg : list Z) :
  forall fuel work wb pre post,
    0 <= wb -> (Z.to_nat wb <= fuel)%nat ->
    Z.of_nat (length seg) = wb / b ->
    drain fuel b work wb (pre ++ seg ++ post) (length pre)
    = Ret (Z.shiftr work (b * Z.of_nat (length seg)), wb mod b,
           (pre ++ digits b (length seg) work) ++ post,
           (length pre + length seg)%nat).
Proof.
  induction seg as [| c seg IH]; intros fuel work wb pre post Hwb Hfuel Hlen.
  - cbn [length] in *.
    assert (wb < b) by (Z.div_mod_to_equations; nia).
    assert (drain fuel b work wb (pre ++ [] ++ post) (length pre)
            = Ret (work, wb, pre ++ [] ++ post, length pre)) as ->
      by (destruct fuel; cbn [drain]; by rewrite geb_false).
    cbn [digits app]. rewrite Z.mul_0_r, Z.shiftr_0_r, app_nil_r.
    rewrite Z.mod_small by lia. do 2 f_equal. lia.
  - cbn [length] in *.
    assert (b <= wb) by (Z.div_mod_to_equations; nia).
    destruct fuel as [| fuel]; [lia |].
    cbn [drain app]. rewrite geb_true by done.
    rewrite store_middle, bind_ret.
    rewrite byte_of_small by (apply land_mask_byte; lia).
    rewrite <- length_snoc with (v := Z.land work (mask_of b)).
    rewrite IH; [| lia | lia | Z.div_mod_to_equations; nia].
    rewrite Z.shiftr_shiftr by nia. rewrite length_snoc.
    cbn [digits]. rewrite <- !app_assoc. cbn [app].
    replace (b * Z.of_nat (S (length seg)))
      with (b + b * Z.of_nat (length seg)) by lia.
    rewrite mod_sub_self by lia.
    by replace (S (length pre) + length seg)%nat
      with (length pre + S (length seg))%nat by lia.
Qed.

(** The outer loop stores the complete symbols of the number made of
    [work] and of the symbols still to read. *)
Lemma changeBase2_loop_spec (src : list Z) :
  Forall is_byte src ->
  forall work wb pre seg post,
    0 <= wb < b ->
    Z.of_nat (length seg) = (wb + a * Z.of_nat (length src)) / b ->
    changeBase2_loop src a b work wb (pre ++ seg ++ post) (length pre)
    = Ret (Z.shiftr (Z.lor work (pack a wb src))
                    (b * Z.of_nat (length seg)),
           (wb + a * Z.of_nat (length src)) mod b,
           (pre ++ digits b (length seg) (Z.lor work (pack a wb src)))
             ++ post,
           (length pre + length seg)%nat).
Proof.
  induction 1 as [| s src Hs Hsrc IH]; intros work wb pre seg post Hwb Hlen.
  - cbn [length changeBase2_loop pack] in *.
    rewrite Z.mul_0_r, Z.add_0_r in *.
    rewrite Z.div_small in Hlen by lia.
    destruct seg; [| done]. cbn [length digits app].
    rewrite Z.lor_0_r, Z.mul_0_r, Z.shiftr_0_r, app_nil_r.
    rewrite Z.mod_small by lia. do 2 f_equal. lia.
  - cbn [length changeBase2_loop pack].
    rewrite ulong_of_shiftl_byte by (done || lia).
    set (work1 := Z.lor work (Z.shiftl s wb)).
    set (wb1 := wb + a).
    set (k := Z.to_nat (wb1 / b)).
    assert (0 <= wb1 / b) by (apply Z.div_pos; lia).
    assert (wb1 = b * (wb1 / b) + wb1 mod b) as Hdm
      by (apply Z.div_mod; lia).
    assert (0 <= wb1 mod b < b) as Hmod by (apply Z.mod_pos_bound; lia).
    assert ((wb + a * Z.of_nat (S (length src))) / b
            = wb1 / b + (wb1 mod b + a * Z.of_nat (length src)) / b) as Hq.
    { rewrite <- Z.div_add_l by lia. f_equal. lia. }
    assert (0 <= (wb1 mod b + a * Z.of_nat (length src)) / b)
      by (apply Z.div_pos; nia).
    assert (length (take k seg) = k) as Hk1
      by (rewrite length_take; cbn [length] in Hlen; lia).
    assert (length seg = (k + length (drop k seg))%nat) as Hk2
      by (rewrite length_drop; cbn [length] in Hlen; lia).
    rewrite <- (take_drop k seg) at 1. rewrite <- (app_assoc (take k seg)).
    rewrite (drain_spec (take k seg)); [| lia | lia | lia].
    rewrite bind_ret. cbv beta iota.
    rewrite Hk1.
    replace (length pre + k)%nat
      with (length (pre ++ digits b k work1))
      by (rewrite length_app, length_digits; lia).
    rewrite IH; [| done | cbn [length] in Hlen; lia].
    assert (Z.lor work (Z.lor (Z.shiftl s wb) (pack a wb1 src))
            = Z.lor work1 (Z.shiftl (pack a (wb1 mod b) src)
                                    (b * Z.of_nat k))) as ->.
    { rewrite Z.lor_assoc. fold work1. f_equal.
      rewrite <- pack_shiftl by lia. f_equal. lia. }
    assert (Z.shiftr (Z.lor work1 (Z.shiftl (pack a (wb1 mod b) src)
                                            (b * Z.of_nat k)))
                     (b * Z.of_nat k)
            = Z.lor (Z.shiftr work1 (b * Z.of_nat k))
                    (pack a (wb1 mod b) src)) as Hshift.
    { rewrite shiftr_lor_shiftl by lia.
      by rewrite Z.sub_diag, Z.shiftl_0_r. }
    replace (length seg) with (k + length (drop k seg))%nat by done.
    rewrite digits_app, digits_lor_high by lia.
    rewrite Hshift.
    replace (b * Z.of_nat (k + length (drop k seg)))
      with (b * Z.of_nat k + b * Z.of_nat (length (drop k seg))) by lia.
    rewrite <- Z.shiftr_shiftr, Hshift by nia.
    rewrite length_app, length_digits, <- !app_assoc.
    replace ((wb + a * Z.of_nat (S (length src))) mod b)
      with ((wb1 mod b + a * Z.of_nat (length src)) mod b).
    + do 2 f_equal. lia.
    + replace (wb + a * Z.of_nat (S (length src)))
        with (wb1 mod b + a * Z.of_nat (length src) + (wb1 / b) * b) by lia.
      by rewrite Z_mod_plus_full.
Qed.

Lemma changeBase2_loop_start (src dst : list Z) :
  Forall is_byte src ->
  (full_symbols a b (length src) <= length dst)%nat ->
  let q := full_symbols a b (length src) in
  changeBase2_loop src a b 0 0 dst 0
  = Ret (Z.shiftr (pack a 0 src) (b * Z.of_nat q),
         leftover_bits a b (length src),
         digits b q (pack a 0 src) ++ drop q dst, q).
Proof.
  intros Hsrc Hcap q.
  assert (0 <= Z.of_nat (length src) * a / b) by (apply Z.div_pos; nia).
  assert (length (take q dst) = q) as Hq by (rewrite length_take; lia).
  pose proof (changeBase2_loop_spec src Hsrc 0 0 [] (take q dst)
                (drop q dst)) as E.
  cbn [app length Nat.add] in E. rewrite take_drop, Hq, Z.lor_0_l in E.
  rewrite E.
  - unfold leftover_bits.
    by replace (0 + a * Z.of_nat (length src))
      with (Z.of_nat (length src) * a) by lia.
  - lia.
  - subst q. unfold full_symbols.
    rewrite Z2Nat.id by done. f_equal. lia.
Qed.

Lemma changeBase2_run_spec (src dst : list Z) (dstLen : Z) :
  Forall is_byte src ->
  (stored_symbols a b (length src) dstLen <= length dst)%nat ->
  let m := stored_symbols a b (length src) dstLen in
  changeBase2_run src a dst dstLen b
  = Ret (digits b m (pack a 0 src) ++ drop m dst, m).
Proof.
  intros Hsrc Hcap m. subst m. unfold stored_symbols in *.
  unfold changeBase2_run.
  rewrite changeBase2_loop_start by (done || lia).
  rewrite bind_ret. cbv beta iota.
  fold (partial_stored a b (length src) dstLen).
  destruct (partial_stored a b (length src) dstLen).
  - set (q := full_symbols a b (length src)) in *.
    destruct (drop q dst) as [| c post] eqn:Hdrop.
    { apply (f_equal length) in Hdrop. rewrite length_drop in Hdrop.
      cbn in Hdrop. lia. }
    rewrite store_at by apply length_digits. rewrite bind_ret.
    rewrite byte_of_small by (apply land_mask_byte; lia).
    rewrite digits_app by lia. cbn [digits].
    replace (drop (q + 1) dst) with post.
    + do 2 f_equal. lia.
    + replace (q + 1)%nat with (S q) by lia.
      apply (f_equal (drop 1)) in Hdrop. rewrite drop_drop in Hdrop.
      cbn [drop] in Hdrop. rewrite Nat.add_1_r in Hdrop. by rewrite Hdrop.
  - by rewrite !Nat.add_0_r.
Qed.

End ChangeBase2.

(** ** Round trip *)

Lemma all_symbols_enough a b n :
  0 <= a -> 1 <= b -> Z.of_nat n * a <= b * Z.of_nat (all_symbols a b n).
Proof.
  intros Ha Hb. unfold all_symbols.
  assert (0 <= Z.of_nat n * a) by nia.
  assert (0 <= (Z.of_nat n * a + b - 1) / b) by (apply Z.div_pos; lia).
  rewrite Z2Nat.id by done. Z.div_mod_to_equations. nia.
Qed.

Lemma stored_all_symbols a b n dstLen :
  0 <= a -> 1 <= b -> Z.of_nat (all_symbols a b n) <= dstLen ->
  stored_symbols a b n dstLen = all_symbols a b n.
Proof.
  intros Ha Hb. unfold stored_symbols, partial_stored, all_symbols,
    full_symbols, leftover_bits.
  assert (0 <= Z.of_nat n * a) as HT by nia.
  set (T := Z.of_nat n * a) in *. clearbody T.
  assert (0 <= T / b) by (apply Z.div_pos; lia).
  assert (0 <= (T + b - 1) / b) by (apply Z.div_pos; lia).
  rewrite !Z2Nat.id by done. intros Hlen.
  destruct (Z.eqb_spec (T mod b) 0) as [E | E]; cbn [negb andb].
  - rewrite Nat.add_0_r. f_equal. Z.div_mod_to_equations. nia.
  - assert ((T + b - 1) / b = T / b + 1) as Hq
      by (Z.div_mod_to_equations; nia).
    rewrite Hq in *. rewrite (proj2 (Z.ltb_lt _ _)) by lia. lia.
Qed.

Lemma small_is_byte a v : 0 <= a <= 8 -> 0 <= v < 2 ^ a -> is_byte v.
Proof.
  intros Ha Hv. assert (2 ^ a <= 2 ^ 8) by (apply Z.pow_le_mono_r; lia).
  unfold is_byte. lia.
Qed.

Lemma changeBase2_all (src dst : list Z) (a b dstLen : Z) :
  1 <= a <= 8 -> 1 <= b <= 8 -> Forall is_byte src ->
  let m := all_symbols a b (length src) in
  (m <= length dst)%nat -> Z.of_nat m <= dstLen ->
  changeBase2 src a dst dstLen b
  = Ret (digits b m (pack a 0 src) ++ drop m dst).
Proof.
  intros Ha Hb Hsrc m Hcap Hlen. unfold changeBase2.
  rewrite changeBase2_run_spec; try done.
  - rewrite bind_ret. cbv beta iota. by rewrite stored_all_symbols by lia.
  - rewrite stored_all_symbols by lia. done.
Qed.

(** C1: for widths [a], [b] in 1..8 and [n] bytes [x] that fit in [a] bits,
    converting [x] from [a]-bit to [b]-bit symbols and the symbols obtained
    back to [a]-bit symbols, each time into a destination that is large
    enough, gives an array whose first [n] bytes are [x]. *)
Theorem changeBase2_round_trip (x dst1 dst2 : list Z)
    (a b dstLen1 dstLen2 : Z) :
  1 <= a <= 8 -> 1 <= b <= 8 ->
  Forall (fun v => 0 <= v < 2 ^ a) x ->
  let n := length x in
  let m := all_symbols a b n in
  let m' := all_symbols b a m in
  (m <= length dst1)%nat -> Z.of_nat m <= dstLen1 ->
  (m' <= length dst2)%nat -> Z.of_nat m' <= dstLen2 ->
  exists enc dec,
    changeBase2 x a dst1 dstLen1 b = Ret enc
    /\ changeBase2 (take m enc) b dst2 dstLen2 a = Ret dec
    /\ take n dec = x.
Proof.
  intros Ha Hb Hx n m m' Hcap1 Hlen1 Hcap2 Hlen2.
  set (V := pack a 0 x).
  exists (digits b m V ++ drop m dst1),
         (digits a m' (pack b 0 (digits b m V)) ++ drop m' dst2).
  assert (take m (digits b m V ++ drop m dst1) = digits b m V) as Htake.
  { rewrite <- (length_digits b m V) at 1. apply take_app_length. }
  pose proof (all_symbols_enough a b n ltac:(lia) ltac:(lia)) as Hm.
  pose proof (all_symbols_enough b a m ltac:(lia) ltac:(lia)) as Hm'.
  fold m in Hm. fold m' in Hm'.
  assert (n <= m')%nat as Hn by nia.
  split; [| split].
  - apply changeBase2_all; try done.
    apply (Forall_on _ _ _ Hx). intros v Hv. apply (small_is_byte a); lia.
  - rewrite Htake.
    pose proof (changeBase2_all (digits b m V) dst2 b a dstLen2) as E.
    rewrite length_digits in E. apply E; try done.
    apply (Forall_on _ _ _ (digits_range b m V ltac:(lia))).
    intros v Hv. apply (small_is_byte b); lia.
  - rewrite take_app_le by (rewrite length_digits; lia).
    rewrite digits_take by done.
    rewrite pack_digits, digits_land_ones by lia.
    apply digits_pack; [lia | done].
Qed.

Lemma changeBase2_round_trip_witness :
  exists enc dec,
    changeBase2 [104; 105; 33] 8 [0; 0; 0; 0; 0] 5 6 = Ret enc
    /\ changeBase2 (take 4 enc) 6 [7; 7; 7; 7] 4 8 = Ret dec
    /\ take 3 dec = [104; 105; 33].
Proof.
  apply (changeBase2_round_trip [104; 105; 33] [0; 0; 0; 0; 0] [7; 7; 7; 7]
           8 6 5 4); try lia; try (vm_compute; lia); try (by vm_compute).
  repeat constructor; lia.
Defined.

(** ** The loops of changeBase2Inline *)

(** One call of the helper, with the recursive call exposed. *)
Lemma changeBase2Inline_rec_unfold depth buf src srcLen a b flag work wb outLoc :
  changeBase2Inline_rec depth buf src srcLen a b flag work wb outLoc
  = let o := match outLoc with Some p => p | None => src end in
    '(src, srcLen, work, wb) ← gather buf src srcLen a b work wb;
    let outVal := byte_of (Z.land work (mask_of b)) in
    match srcLen with
    | S _ =>
        match depth with
        | O => Diverges
        | S depth' =>
            buf' ← changeBase2Inline_rec depth' buf src srcLen a b flag
                     (Z.shiftr work b) (wb - b) (Some (S o));
            store buf' o outVal
        end
    | O =>
        buf' ← store buf o outVal;
        if flag then
          flush (Z.to_nat (wb - b)) b (Z.shiftr work b) (wb - b) buf' (S o)
        else Ret buf'
    end.
Proof. by destruct depth. Qed.

Section Inline.

Variables a b : Z.
Hypothesis Ha : 1 <= a <= 8.
Hypothesis Hb : 1 <= b <= 8.

Variable buf : list Z.
Hypothesis Hbuf : Forall is_byte buf.

(** The read loop takes [j] symbols: all that are left, or as few as make
    [workBits] reach [b]. *)
Lemma gather_spec (L : nat) :
  forall src work wb,
    (src + L <= length buf)%nat -> 0 <= wb ->
    exists j,
      (j <= L)%nat
      /\ gather buf src L a b work wb
         = Ret ((src + j)%nat, (L - j)%nat,
                Z.lor work (pack a wb (take j (drop src buf))),
                wb + a * Z.of_nat j)
      /\ ((j < L)%nat -> b <= wb + a * Z.of_nat j)
      /\ ((0 < j)%nat -> wb + a * (Z.of_nat j - 1) < b).
Proof.
  induction L as [| L IH]; intros src work wb Hsrc Hwb.
  - exists 0%nat. cbn [gather take pack].
    rewrite Z.lor_0_r, Z.mul_0_r, !Z.add_0_r, Nat.add_0_r.
    repeat split; lia.
  - cbn [gather]. destruct (Z.ltb_spec wb b) as [Hlt | Hge].
    + destruct (lookup_lt_is_Some_2 buf src ltac:(lia)) as [v Hv].
      assert (is_byte v) as Hbyte
        by (rewrite Forall_lookup in Hbuf; by apply (Hbuf src)).
      unfold load. rewrite Hv, bind_ret.
      rewrite ulong_of_shiftl_byte by (done || lia).
      destruct (IH (S src) (Z.lor work (Z.shiftl v wb)) (wb + a)
                  ltac:(lia) ltac:(lia)) as (j & Hj & -> & Hmore & Hless).
      exists (S j). split; [lia |]. split; [| split].
      * rewrite (drop_S buf v src Hv). cbn [take pack].
        rewrite Z.lor_assoc.
        replace (S src + j)%nat with (src + S j)%nat by lia.
        replace (wb + a + a * Z.of_nat j) with (wb + a * Z.of_nat (S j))
          by lia.
        done.
      * intros Hlt'. specialize (Hmore ltac:(lia)). lia.
      * intros _. destruct j as [| j]; [lia |].
        specialize (Hless ltac:(lia)). lia.
    + exists 0%nat. cbn [take pack].
      rewrite Z.lor_0_r, Z.mul_0_r, !Z.add_0_r, Nat.add_0_r, Nat.sub_0_r.
      repeat split; lia.
Qed.

(** The final loop stores the symbols of the bits that are left, the
    last one partial. *)
Lemma flush_spec (seg : list Z) :
  forall fuel work wb pre post,
    (Z.to_nat wb <= fuel)%nat ->
    Z.of_nat (length seg) = (wb + b - 1) / b ->
    flush fuel b work wb (pre ++ seg ++ post) (length pre)
    = Ret ((pre ++ digits b (length seg) work) ++ post).
Proof.
  induction seg as [| c seg IH]; intros fuel work wb pre post Hfuel Hlen.
  - cbn [length] in Hlen.
    assert (wb <= 0) by (Z.div_mod_to_equations; nia).
    cbn [digits app length]. rewrite app_nil_r.
    destruct fuel; cbn [flush]; by rewrite gtb_false.
  - cbn [length] in Hlen.
    assert (1 <= wb) by (Z.div_mod_to_equations; nia).
    destruct fuel as [| fuel]; [lia |].
    cbn [flush app]. rewrite gtb_true by lia.
    rewrite store_middle, bind_ret.
    rewrite byte_of_small by (apply land_mask_byte; lia).
    rewrite <- length_snoc with (v := Z.land work (mask_of b)).
    rewrite IH.
    + cbn [digits length]. by rewrite <- !app_assoc.
    + lia.
    + replace (wb - b + b - 1) with (wb + b - 1 - b) by lia.
      rewrite div_sub_self by lia. lia.
Qed.

Lemma take_split (l : list Z) (j L : nat) :
  (j <= L)%nat -> take L l = take j l ++ take (L - j) (drop j l).
Proof.
  intros Hj. rewrite take_take_drop. f_equal. lia.
Qed.

Lemma flush_at (seg : list Z) fuel work wb pre post (i : nat) :
  length pre = i ->
  (Z.to_nat wb <= fuel)%nat ->
  Z.of_nat (length seg) = (wb + b - 1) / b ->
  flush fuel b work wb (pre ++ seg ++ post) i
  = Ret ((pre ++ digits b (length seg) work) ++ post).
Proof. intros <-. apply flush_spec. Qed.

Variable flag : bool.

(** The branch without input left: one symbol, then the rest if asked. *)
Lemma inline_last_level (o : nat) (work wb : Z) :
  let c := if flag then S (Z.to_nat ((wb - 1) / b)) else 1%nat in
  1 <= wb -> (o + c <= length buf)%nat ->
  (buf' ← store buf o (Z.land work (mask_of b));
   if flag then
     flush (Z.to_nat (wb - b)) b (Z.shiftr work b) (wb - b) buf' (S o)
   else Ret buf')
  = Ret (take o buf ++ digits b c work ++ drop (o + c) buf).
Proof.
  intros c Hwb Hcap.
  destruct (lookup_lt_is_Some_2 buf o ltac:(destruct flag; lia)) as [x Hx].
  assert (length (take o buf) = o) as Ho
    by (rewrite length_take; apply lookup_lt_Some in Hx; lia).
  rewrite <- (take_drop_middle buf o x Hx) at 1.
  rewrite store_at, bind_ret by done.
  rewrite byte_of_small by (apply land_mask_byte; lia).
  destruct flag; subst c.
  - set (c' := Z.to_nat ((wb - 1) / b)) in *.
    assert (0 <= (wb - 1) / b) by (apply Z.div_pos; lia).
    rewrite <- (take_drop c' (drop (S o) buf)).
    rewrite (flush_at (take c' (drop (S o) buf)));
      [| by rewrite length_snoc, Ho | |].
    + rewrite length_take, length_drop, Nat.min_l by lia.
      cbn [digits]. rewrite drop_drop, <- !app_assoc. cbn [app].
      by replace (S o + c')%nat with (o + S c')%nat by lia.
    + lia.
    + rewrite length_take, length_drop, Nat.min_l by lia.
      subst c'. rewrite Z2Nat.id by done. f_equal. lia.
  - cbn [digits app]. rewrite <- app_assoc. cbn [app].
    by replace (o + 1)%nat with (S o) by lia.
Qed.

Lemma changeBase2Inline_rec_spec (depth : nat) :
  forall src L work wb outLoc,
    let o := match outLoc with Some p => p | None => src end in
    let T := wb + a * Z.of_nat L in
    let c := inline_symbols a b flag T in
    let V := Z.lor work (pack a wb (take L (drop src buf))) in
    (1 <= L)%nat -> (src + L <= length buf)%nat -> 0 <= wb ->
    T <= Z.of_nat depth -> (o + c <= length buf)%nat ->
    changeBase2Inline_rec depth buf src L a b flag work wb outLoc
    = Ret (take o buf ++ digits b c V ++ drop (o + c) buf).
Proof.
  induction depth as [| depth IH];
    intros src L work wb outLoc o T c V HL Hsrc Hwb Hdepth Hcap;
    rewrite changeBase2Inline_rec_unfold; fold o; cbv zeta;
    destruct (gather_spec L src work wb Hsrc Hwb)
      as (j & Hj & -> & Hmore & Hless);
    rewrite bind_ret; cbv beta iota;
    rewrite byte_of_small by (apply land_mask_byte; lia);
    destruct (L - j)%nat as [| L'] eqn:HL'.
  1, 3: assert (j = L) as -> by lia; fold V;
    specialize (Hless ltac:(lia));
    assert (inline_symbols a b flag T
            = if flag then S (Z.to_nat ((wb + a * Z.of_nat L - 1) / b))
              else 1%nat) as Hc
      by (unfold inline_symbols; subst T; destruct flag; [done |];
          replace ((wb + a * Z.of_nat L - a) / b) with 0; [done |];
          symmetry; apply Z.div_small; nia);
    subst c; rewrite Hc in *;
    rewrite inline_last_level; [done | nia | done].
  - subst T. nia.
  - specialize (Hmore ltac:(lia)). clear Hless.
    assert (length (take j (drop src buf)) = j) as Hlenj
      by (rewrite length_take, length_drop; lia).
    set (work1 := Z.lor work (pack a wb (take j (drop src buf)))) in *.
    set (wb1 := wb + a * Z.of_nat j) in *.
    set (ys := take (S L') (drop (src + j) buf)).
    assert (V = Z.lor work1 (Z.shiftl (pack a (wb1 - b) ys) b)) as HV.
    { subst V. rewrite (take_split _ j L) by done.
      rewrite HL', drop_drop, pack_app, Hlenj, Z.lor_assoc.
      fold work1 wb1 ys. f_equal.
      rewrite <- pack_shiftl by lia. f_equal. lia. }
    assert (0 <= wb1 - b + a * Z.of_nat (S L')
                 - (if flag then 1 else a)) as Hpos
      by (destruct flag; nia).
    assert (c = S (inline_symbols a b flag
                     (wb1 - b + a * Z.of_nat (S L')))) as Hc.
    { subst c T. unfold inline_symbols. f_equal.
      replace (wb + a * Z.of_nat L - (if flag then 1 else a))
        with (wb1 - b + a * Z.of_nat (S L') - (if flag then 1 else a)
              + 1 * b) by (subst wb1; nia).
      rewrite Z.div_add by lia.
      rewrite Z2Nat.inj_add; [| apply Z.div_pos; lia | lia].
      cbn. lia. }
    rewrite (IH (src + j)%nat (S L') _ _ (Some (S o)));
      [| lia | lia | lia | subst T wb1; nia | lia].
    rewrite bind_ret. fold ys.
    destruct (lookup_lt_is_Some_2 buf o ltac:(lia)) as [x Hx].
    rewrite (take_S_r buf o x) by done.
    rewrite <- (app_assoc (take o buf)). cbn [app].
    rewrite store_at
      by (rewrite length_take; apply lookup_lt_Some in Hx; lia).
    rewrite byte_of_small by (apply land_mask_byte; lia).
    rewrite Hc. cbn [digits]. rewrite HV.
    rewrite land_lor_shiftl_mask, shiftr_lor_shiftl by lia.
    rewrite Z.sub_diag, Z.shiftl_0_r.
    rewrite <- !app_assoc. cbn [app].
    by replace (o + S (inline_symbols a b flag
                         (wb1 - b + a * Z.of_nat (S L'))))%nat
      with (S o + inline_symbols a b flag
                    (wb1 - b + a * Z.of_nat (S L')))%nat by lia.
Qed.

End Inline.

(** ** changeBase2Inline against changeBase2 *)

Lemma inline_symbols_set a b n :
  1 <= a -> 1 <= b -> (1 <= n)%nat ->
  inline_symbols a b true (0 + a * Z.of_nat n) = all_symbols a b n.
Proof.
  intros Ha Hb Hn. unfold inline_symbols, all_symbols.
  replace (Z.of_nat n * a + b - 1) with (a * Z.of_nat n - 1 + 1 * b) by lia.
  rewrite Z.div_add by lia.
  rewrite Z2Nat.inj_add; [| apply Z.div_pos; nia | lia].
  rewrite Z.add_0_l. cbn. lia.
Qed.

Lemma inline_symbols_clear a b n :
  (1 <= n)%nat ->
  inline_symbols a b false (0 + a * Z.of_nat n)
  = S (full_symbols a b (n - 1)).
Proof.
  intros Hn. unfold inline_symbols, full_symbols.
  replace (Z.of_nat (n - 1)) with (Z.of_nat n - 1) by lia.
  do 3 f_equal. lia.
Qed.


(** What the public entry point leaves in the buffer for a non-empty input. *)
Lemma changeBase2Inline_spec (buf : list Z) (n : nat) (a b : Z) (flag : bool) :
  1 <= a <= 8 -> 1 <= b <= 8 -> Forall is_byte buf ->
  (1 <= n <= length buf)%nat ->
  let c := inline_symbols a b flag (0 + a * Z.of_nat n) in
  (c <= length buf)%nat ->
  changeBase2Inline buf n a b flag
  = Ret (digits b c (pack a 0 (take n buf)) ++ drop c buf).
Proof.
  intros Ha Hb Hbuf Hn c Hcap. unfold changeBase2Inline.
  rewrite (changeBase2Inline_rec_spec a b Ha Hb buf Hbuf flag); try lia.
  fold c. by rewrite Z.lor_0_l, take_0.
Qed.




(** * Further properties of the base-N codec *)

(** ** The order of the bits *)

Lemma testbit_small a s i :
  0 <= a -> 0 <= s < 2 ^ a -> a <= i -> Z.testbit s i = false.
Proof.
  intros Ha Hs Hi. rewrite <- (Z.mod_small s (2 ^ a)) by done.
  apply Z.mod_pow2_bits_high. lia.
Qed.

Lemma testbit_digits b m V i j :
  0 <= b -> (i < m)%nat -> 0 <= j < b ->
  Z.testbit (nth i (digits b m V) 0) j = Z.testbit V (b * Z.of_nat i + j).
Proof.
  intros Hb. revert V i. induction m as [| m IH]; intros V i Hi Hj; [lia |].
  destruct i as [| i]; cbn [digits nth].
  - rewrite (mask_of_ones b), Z.land_spec, testbit_ones by lia.
    rewrite (proj2 (Z.leb_le 0 j)), (proj2 (Z.ltb_lt j b)) by lia.
    rewrite andb_true_r. f_equal. lia.
  - rewrite IH by lia. rewrite Z.shiftr_spec by nia. f_equal. lia.
Qed.

Lemma testbit_pack_low a k x t :
  0 <= a -> 0 <= k -> t < k -> Z.testbit (pack a k x) t = false.
Proof.
  intros Ha Hk Ht. rewrite <- (Z.add_0_l k), pack_shiftl by lia.
  destruct (Z.le_gt_cases 0 t).
  - rewrite Z.shiftl_spec by done. apply Z.testbit_neg_r. lia.
  - apply Z.testbit_neg_r. lia.
Qed.

Lemma testbit_pack a x :
  1 <= a -> Forall (fun v => 0 <= v < 2 ^ a) x ->
  forall k t, 0 <= k <= t ->
    Z.testbit (pack a k x) t
    = Z.testbit (nth (Z.to_nat ((t - k) / a)) x 0) ((t - k) mod a).
Proof.
  intros Ha Hx. induction Hx as [| s x Hs _ IH]; intros k t Hkt.
  - cbn [pack]. destruct (Z.to_nat ((t - k) / a)); cbn [nth];
      by rewrite !Z.testbit_0_l.
  - cbn [pack]. rewrite Z.lor_spec, Z.shiftl_spec by lia.
    destruct (Z.lt_ge_cases (t - k) a) as [Hlt | Hge].
    + rewrite testbit_pack_low, orb_false_r by lia.
      rewrite Z.div_small, Z.mod_small by lia. done.
    + rewrite (testbit_small a s) by lia. rewrite orb_false_l.
      rewrite IH by lia.
      replace (t - (k + a)) with (t - k - a) by lia.
      rewrite div_sub_self, mod_sub_self by lia.
      assert (1 <= (t - k) / a) by (apply Z.div_le_lower_bound; lia).
      replace (Z.to_nat ((t - k) / a))
        with (S (Z.to_nat ((t - k) / a - 1))) by lia.
      done.
Qed.

(** X1: the bit stream is kept, low bits first.  For bytes that fit in [a]
    bits and a destination that is large enough, bit [t] of the output of
    [changeBase2] (bit [t mod b] of symbol [t / b]) is bit [t] of the input
    (bit [t mod a] of symbol [t / a]), and is 0 past the end of the input. *)
Theorem changeBase2_bit_order (x dst : list Z) (a b dstLen : Z) :
  1 <= a <= 8 -> 1 <= b <= 8 ->
  Forall (fun v => 0 <= v < 2 ^ a) x ->
  let m := all_symbols a b (length x) in
  (m <= length dst)%nat -> Z.of_nat m <= dstLen ->
  exists out,
    changeBase2 x a dst dstLen b = Ret (out ++ drop m dst)
    /\ length out = m
    /\ forall t, 0 <= t < b * Z.of_nat m ->
         Z.testbit (nth (Z.to_nat (t / b)) out 0) (t mod b)
         = Z.testbit (nth (Z.to_nat (t / a)) x 0) (t mod a).
Proof.
  intros Ha Hb Hx m Hcap Hlen.
  exists (digits b m (pack a 0 x)). split; [| split].
  - apply changeBase2_all; try done.
    apply (Forall_on _ _ _ Hx). intros v Hv. apply (small_is_byte a); lia.
  - apply length_digits.
  - intros t Ht.
    assert (0 <= t / b < Z.of_nat m)
      by (split; [apply Z.div_pos | apply Z.div_lt_upper_bound]; lia).
    pose proof (Z.mod_pos_bound t b ltac:(lia)).
    rewrite testbit_digits by lia.
    rewrite Z2Nat.id by lia.
    rewrite <- Z.div_mod by lia.
    rewrite (testbit_pack a x) by (done || lia).
    by rewrite Z.sub_0_r.
Qed.

Lemma changeBase2_bit_order_witness :
  exists out,
    changeBase2 [104; 105] 8 [0; 0; 0] 3 6 = Ret (out ++ [])
    /\ length out = 3%nat
    /\ forall t, 0 <= t < 6 * 3 ->
         Z.testbit (nth (Z.to_nat (t / 6)) out 0) (t mod 6)
         = Z.testbit (nth (Z.to_nat (t / 8)) [104; 105] 0) (t mod 8).
Proof.
  apply (changeBase2_bit_order [104; 105] [0; 0; 0] 8 6 3).
  - lia.
  - lia.
  - repeat constructor; lia.
  - vm_compute. lia.
  - by vm_compute.
Defined.

(** ** A destination that is too small *)

Lemma store_full (pre : list Z) (w : Z) :
  store pre (length pre) w = OutOfBounds.
Proof. unfold store. rewrite decide_False; [done | lia]. Qed.

Section Overflow.

Variables a b : Z.
Hypothesis Ha : 1 <= a <= 8.
Hypothesis Hb : 1 <= b <= 8.

Lemma drain_short (rest : list Z) :
  forall fuel work wb pre,
    0 <= wb -> (Z.to_nat wb <= fuel)%nat ->
    Z.of_nat (length rest) < wb / b ->
    drain fuel b work wb (pre ++ rest) (length pre) = OutOfBounds.
Proof.
  induction rest as [| c rest IH]; intros fuel work wb pre Hwb Hfuel Hlen;
    cbn [length] in Hlen;
    (assert (b <= wb) by (Z.div_mod_to_equations; nia));
    (destruct fuel as [| fuel]; [lia |]);
    cbn [drain]; rewrite geb_true by done.
  - by rewrite app_nil_r, store_full.
  - rewrite store_middle, bind_ret.
    rewrite <- length_snoc with (v := byte_of (Z.land work (mask_of b))).
    apply IH; [lia | lia |]. rewrite div_sub_self by lia. lia.
Qed.

Lemma changeBase2_loop_short (src : list Z) :
  Forall is_byte src ->
  forall work wb pre rest,
    0 <= wb < b ->
    Z.of_nat (length rest) < (wb + a * Z.of_nat (length src)) / b ->
    changeBase2_loop src a b work wb (pre ++ rest) (length pre) = OutOfBounds.
Proof.
  induction 1 as [| s src Hs Hsrc IH]; intros work wb pre rest Hwb Hlen.
  - cbn [length] in Hlen. rewrite Z.mul_0_r, Z.add_0_r in Hlen.
    rewrite Z.div_small in Hlen by lia. lia.
  - cbn [length changeBase2_loop].
    set (wb1 := wb + a).
    assert (0 <= wb1 / b) by (apply Z.div_pos; lia).
    assert (wb1 = b * (wb1 / b) + wb1 mod b) as Hdm by (apply Z.div_mod; lia).
    assert (0 <= wb1 mod b < b) as Hmod by (apply Z.mod_pos_bound; lia).
    assert ((wb + a * Z.of_nat (S (length src))) / b
            = wb1 / b + (wb1 mod b + a * Z.of_nat (length src)) / b) as Hq.
    { rewrite <- Z.div_add_l by lia. f_equal. lia. }
    destruct (Z.lt_ge_cases (Z.of_nat (length rest)) (wb1 / b)) as [Hk | Hk].
    + by rewrite drain_short by lia.
    + set (k := Z.to_nat (wb1 / b)).
      assert (length (take k rest) = k) as Hk1 by (rewrite length_take; lia).
      rewrite <- (take_drop k rest) at 1.
      rewrite (drain_spec a b Ha Hb (take k rest)); [| lia | lia | lia].
      rewrite bind_ret. cbv beta iota. rewrite Hk1.
      replace (length pre + k)%nat
        with (length (pre ++ digits b k
                        (Z.lor work (ulong_of (Z.shiftl s wb)))))
        by (rewrite length_app, length_digits; lia).
      apply IH; [done |]. rewrite length_drop. cbn [length] in Hlen. lia.
Qed.

End Overflow.

(** X2: [dstLen] does not bound the stores.  With widths in 1..8,
    [changeBase2] runs out of the destination array exactly when the array
    has fewer cells than the symbols to store, the complete symbols being
    stored whatever [dstLen] is. *)
Theorem changeBase2_out_of_bounds (src dst : list Z) (a b dstLen : Z) :
  1 <= a <= 8 -> 1 <= b <= 8 -> Forall is_byte src ->
  changeBase2 src a dst dstLen b = OutOfBounds
  <-> (length dst < stored_symbols a b (length src) dstLen)%nat.
Proof.
  intros Ha Hb Hsrc. unfold changeBase2.
  destruct (Nat.le_gt_cases (stored_symbols a b (length src) dstLen)
              (length dst)) as [Hle | Hgt].
  - rewrite changeBase2_run_spec by done. split; [done | lia].
  - split; [done | intros _]. unfold changeBase2_run.
    destruct (Nat.le_gt_cases (full_symbols a b (length src)) (length dst))
      as [Hfull | Hfull].
    + rewrite changeBase2_loop_start by done. rewrite bind_ret. cbv beta iota.
      unfold stored_symbols in Hgt.
      fold (partial_stored a b (length src) dstLen).
      destruct (partial_stored a b (length src) dstLen); [| lia].
      rewrite drop_ge, app_nil_r by lia.
      replace (full_symbols a b (length src))
        with (length (digits b (full_symbols a b (length src))
                        (pack a 0 src))) at 2 by apply length_digits.
      by rewrite store_full.
    + pose proof (changeBase2_loop_short a b Ha Hb src Hsrc 0 0 [] dst) as E.
      cbn [app length] in E. rewrite E; [done | lia |].
      unfold full_symbols in Hfull.
      assert (0 <= Z.of_nat (length src) * a / b) by (apply Z.div_pos; nia).
      replace (0 + a * Z.of_nat (length src))
        with (Z.of_nat (length src) * a) by lia.
      lia.
Qed.

Lemma changeBase2_out_of_bounds_witness :
  changeBase2 [1; 2; 3] 8 [0; 0; 0] 0 6 = OutOfBounds
  <-> (length [0; 0; 0] < stored_symbols 8 6 (length [1; 2; 3]) 0)%nat.
Proof.
  apply (changeBase2_out_of_bounds [1; 2; 3] [0; 0; 0] 8 6 0).
  - lia.
  - lia.
  - repeat constructor; unfold is_byte; lia.
Defined.

(** ** An output width of zero *)

Lemma drain_no_exit (fuel : nat) :
  forall work wb dst pos r,
    0 <= wb -> drain fuel 0 work wb dst pos <> Ret r.
Proof.
  induction fuel as [| fuel IH]; intros work wb dst pos r Hwb;
    cbn [drain]; rewrite geb_true by done; [done |].
  destruct (store dst pos _) as [dst' | |]; [| done | done].
  rewrite bind_ret. apply IH; lia.
Qed.

Lemma gather_stays buf src srcLen a b work wb :
  b <= wb ->
  gather buf src srcLen a b work wb = Ret (src, srcLen, work, wb).
Proof.
  intros Hwb. destruct srcLen; cbn [gather]; [done |].
  by rewrite (proj2 (Z.ltb_ge wb b)).
Qed.

Lemma changeBase2Inline_rec_no_exit (depth : nat) :
  forall buf src srcLen a flag work wb outLoc r,
    0 <= wb -> (1 <= srcLen)%nat ->
    changeBase2Inline_rec depth buf src srcLen a 0 flag work wb outLoc
    <> Ret r.
Proof.
  induction depth as [| depth IH];
    intros buf src srcLen a flag work wb outLoc r Hwb Hlen;
    rewrite changeBase2Inline_rec_unfold; cbv zeta;
    rewrite gather_stays, bind_ret by lia; cbv beta iota;
    (destruct srcLen as [| n]; [lia |]); [done |].
  intros Hret.
  destruct (changeBase2Inline_rec depth buf src (S n) a 0 flag
              (Z.shiftr work 0) (wb - 0) _) as [buf' | |] eqn:E;
    [| done | done].
  by apply IH in E; [| lia | lia].
Qed.

(** X3: an output width of zero.  With [dst2Pow = 0] neither [changeBase2]
    (with [src2Pow >= 0]) nor [changeBase2Inline] returns from a non-empty
    input: the loop that stores symbols leaves [workBits] as it is and so
    never sees its exit condition, and the helper calls itself again without
    reading a byte. *)
Theorem changeBase2_zero_width (src dst buf : list Z) (srcLen : nat)
    (src2Pow dstLen : Z) (flag : bool) :
  0 <= src2Pow -> src <> [] -> (1 <= srcLen)%nat ->
  (forall r, changeBase2 src src2Pow dst dstLen 0 <> Ret r)
  /\ (forall r, changeBase2Inline buf srcLen src2Pow 0 flag <> Ret r).
Proof.
  intros Ha Hsrc Hlen. split; intros r.
  - destruct src as [| s src]; [done |].
    unfold changeBase2, changeBase2_run. cbn [changeBase2_loop].
    destruct (drain _ 0 _ (0 + src2Pow) dst 0) as [st | |] eqn:E;
      [| done | done].
    by apply drain_no_exit in E; [| lia].
  - apply changeBase2Inline_rec_no_exit; lia.
Qed.

Lemma changeBase2_zero_width_witness :
  (forall r, changeBase2 [1; 2] 8 [0; 0; 0] 3 0 <> Ret r)
  /\ (forall r, changeBase2Inline [1; 2; 0] 2 8 0 true <> Ret r).
Proof.
  apply (changeBase2_zero_width [1; 2] [0; 0; 0] [1; 2; 0] 2 8 3 true);
    (lia || done).
Defined.

(** ** Input given in pieces *)

Lemma pack_high a x :
  1 <= a -> Forall (fun v => 0 <= v < 2 ^ a) x ->
  Z.shiftr (pack a 0 x) (a * Z.of_nat (length x)) = 0.
Proof.
  intros Ha Hx. apply Z.bits_inj'. intros i Hi.
  rewrite Z.shiftr_spec, Z.testbit_0_l by done.
  rewrite (testbit_pack a x) by (done || nia).
  rewrite Z.sub_0_r, nth_overflow; [apply Z.testbit_0_l |].
  assert (Z.of_nat (length x) <= (i + a * Z.of_nat (length x)) / a)
    by (apply Z.div_le_lower_bound; nia).
  lia.
Qed.

Lemma all_symbols_exact a b n q :
  1 <= b -> Z.of_nat n * a = b * Z.of_nat q -> all_symbols a b n = q.
Proof.
  intros Hb Hq. unfold all_symbols. rewrite Hq.
  replace (b * Z.of_nat q + b - 1) with (Z.of_nat q * b + (b - 1)) by lia.
  rewrite Z.div_add_l, Z.div_small by lia. lia.
Qed.

Lemma all_symbols_add a b n n' q :
  1 <= b -> 0 <= a -> Z.of_nat n * a = b * Z.of_nat q ->
  all_symbols a b (n + n') = (q + all_symbols a b n')%nat.
Proof.
  intros Hb Ha Hq. unfold all_symbols.
  replace (Z.of_nat (n + n') * a + b - 1)
    with (Z.of_nat q * b + (Z.of_nat n' * a + b - 1)) by lia.
  rewrite Z.div_add_l by lia.
  rewrite Z2Nat.inj_add; [lia | lia | apply Z.div_pos; nia].
Qed.

(** ** The symbols stored *)

Lemma pack_nonneg a x :
  Forall (fun v => 0 <= v) x -> forall k, 0 <= pack a k x.
Proof.
  induction 1 as [| s x Hs _ IH]; intros k; cbn [pack]; [done |].
  apply Z.lor_nonneg. split; [by apply Z.shiftl_nonneg | apply IH].
Qed.

Lemma pack_rest_bound a b x :
  1 <= a -> 1 <= b -> Forall (fun v => 0 <= v < 2 ^ a) x ->
  let rest := Z.shiftr (pack a 0 x)
                (b * Z.of_nat (full_symbols a b (length x))) in
  0 <= rest < 2 ^ leftover_bits a b (length x).
Proof.
  intros Ha Hb Hx. cbv zeta. unfold full_symbols, leftover_bits.
  set (T := Z.of_nat (length x) * a).
  assert (0 <= T) by (subst T; nia).
  assert (0 <= T / b) by (apply Z.div_pos; lia).
  assert (0 <= T mod b < b) by (apply Z.mod_pos_bound; lia).
  assert (T = b * (T / b) + T mod b) as HT by (apply Z.div_mod; lia).
  rewrite Z2Nat.id by done.
  set (rest := Z.shiftr (pack a 0 x) (b * (T / b))).
  assert (0 <= rest) as Hrest.
  { apply Z.shiftr_nonneg, pack_nonneg.
    apply (Forall_on _ _ _ Hx). intros v Hv. lia. }
  assert (Z.shiftr rest (T mod b) = 0) as Hhigh.
  { subst rest. rewrite Z.shiftr_shiftr, <- HT by lia.
    subst T. rewrite Z.mul_comm. by apply pack_high. }
  rewrite Z.shiftr_div_pow2 in Hhigh by lia.
  apply Z.div_small_iff in Hhigh; lia.
Qed.

(** C9: on [n] input bytes [changeBase2] stores exactly [floor(n*a/b)]
    complete symbols in its loop, the first symbols of the input read as one
    stream of bits, and leaves the loop with [n*a mod b] bits in the work
    buffer: the stream beyond the complete symbols.  It then stores one more
    symbol, the low [b] bits of the work buffer, exactly when that remainder
    is not zero and fewer than [dstLen] symbols were stored.  When the input
    symbols fit in [a] bits the work buffer holds nothing but the [n*a mod b]
    remaining bits, and the last symbol is their value.  Every stored byte is
    below [2^b]. *)
Theorem changeBase2_symbol_count (src dst : list Z) (a b dstLen : Z) :
  1 <= a <= 8 -> 1 <= b <= 8 -> Forall is_byte src ->
  let n := length src in
  let full := full_symbols a b n in
  let total := stored_symbols a b n dstLen in
  let V := pack a 0 src in
  let rest := Z.shiftr V (b * Z.of_nat full) in
  (total <= length dst)%nat ->
  changeBase2_loop src a b 0 0 dst 0
  = Ret (rest, leftover_bits a b n, digits b full V ++ drop full dst, full)
  /\ changeBase2_run src a dst dstLen b
     = Ret (digits b total V ++ drop total dst, total)
  /\ (partial_stored a b n dstLen = true ->
      digits b total V !! full = Some (Z.land rest (mask_of b)))
  /\ (Forall (fun v => 0 <= v < 2 ^ a) src ->
      0 <= rest < 2 ^ leftover_bits a b n /\ Z.land rest (mask_of b) = rest)
  /\ Forall (fun v => 0 <= v < 2 ^ b) (digits b total V).
Proof.
  intros Ha Hb Hsrc n full total V rest Hcap. subst n full V rest.
  assert (full_symbols a b (length src) <= total)%nat as Hle
    by (subst total; unfold stored_symbols; lia).
  split; [| split; [| split; [| split]]].
  - apply changeBase2_loop_start; (done || lia).
  - by apply changeBase2_run_spec.
  - intros Hp. subst total. unfold stored_symbols. rewrite Hp.
    rewrite digits_app by lia. cbn [digits].
    apply list_lookup_middle. by rewrite length_digits.
  - intros Hfit.
    pose proof (pack_rest_bound a b src ltac:(lia) ltac:(lia) Hfit) as Hr.
    cbv zeta in Hr. split; [done |].
    apply land_mask_small; [lia |].
    assert (0 <= leftover_bits a b (length src) < b)
      by (apply Z.mod_pos_bound; lia).
    assert (2 ^ leftover_bits a b (length src) <= 2 ^ b)
      by (apply Z.pow_le_mono_r; lia).
    lia.
  - apply digits_range. lia.
Qed.

Lemma changeBase2_symbol_count_witness :
  changeBase2_loop [255; 255] 8 6 0 0 [9; 9; 9; 9; 9] 0
  = Ret (15, 4, [63; 63; 9; 9; 9], 2%nat)
  /\ changeBase2_run [255; 255] 8 [9; 9; 9; 9; 9] 5 6
     = Ret ([63; 63; 15; 9; 9], 3%nat)
  /\ [63; 63; 15] !! 2%nat = Some (Z.land 15 (mask_of 6))
  /\ 0 <= 15 < 2 ^ 4.
Proof.
  destruct (changeBase2_symbol_count [255; 255] [9; 9; 9; 9; 9] 8 6 5)
    as (Hloop & Hrun & Hlast & Hrest & _).
  - lia.
  - lia.
  - repeat constructor; unfold is_byte; lia.
  - vm_compute. lia.
  - split; [exact Hloop | split; [exact Hrun | split]].
    + exact (Hlast eq_refl).
    + apply Hrest. repeat constructor; lia.
Defined.

Lemma digits_pack_app a b x y q m :
  1 <= a -> 1 <= b ->
  Forall (fun v => 0 <= v < 2 ^ a) x ->
  Z.of_nat (length x) * a = b * Z.of_nat q ->
  digits b (q + m) (pack a 0 (x ++ y))
  = digits b q (pack a 0 x) ++ digits b m (pack a 0 y).
Proof.
  intros Ha Hb Hx Hq.
  rewrite pack_app, Z.add_0_l.
  replace (a * Z.of_nat (length x)) with (0 + b * Z.of_nat q) by lia.
  rewrite pack_shiftl by lia.
  rewrite digits_app, digits_lor_high by lia. f_equal.
  rewrite shiftr_lor_shiftl by lia.
  rewrite Z.sub_diag, Z.shiftl_0_r.
  replace (b * Z.of_nat q) with (a * Z.of_nat (length x)) by lia.
  by rewrite pack_high, Z.lor_0_l.
Qed.

(** X4: conversion piece by piece.  When the bits of a first piece [x] are
    a whole number of output symbols ([length x * a] is a multiple of [b]),
    converting [x ++ y] stores the symbols of [x] followed by the symbols of
    [y], for bytes that fit in [a] bits and destinations that are large
    enough. *)
Theorem changeBase2_app (x y dst dx dy : list Z) (a b : Z) (q : nat) :
  1 <= a <= 8 -> 1 <= b <= 8 ->
  Forall (fun v => 0 <= v < 2 ^ a) x ->
  Forall (fun v => 0 <= v < 2 ^ a) y ->
  Z.of_nat (length x) * a = b * Z.of_nat q ->
  let m := all_symbols a b (length y) in
  (q + m <= length dst)%nat -> (q <= length dx)%nat -> (m <= length dy)%nat ->
  exists ox oy,
    length ox = q /\ length oy = m
    /\ changeBase2 x a dx (Z.of_nat (length dx)) b = Ret (ox ++ drop q dx)
    /\ changeBase2 y a dy (Z.of_nat (length dy)) b = Ret (oy ++ drop m dy)
    /\ changeBase2 (x ++ y) a dst (Z.of_nat (length dst)) b
       = Ret (ox ++ oy ++ drop (q + m) dst).
Proof.
  intros Ha Hb Hx Hy Hq m Hdst Hdx Hdy.
  assert (forall l, Forall (fun v => 0 <= v < 2 ^ a) l -> Forall is_byte l)
    as Hbytes.
  { intros l Hl. apply (Forall_on _ _ _ Hl). intros v Hv.
    apply (small_is_byte a); lia. }
  exists (digits b q (pack a 0 x)), (digits b m (pack a 0 y)).
  split; [apply length_digits |]. split; [apply length_digits |].
  split; [| split].
  - pose proof (changeBase2_all x dx a b (Z.of_nat (length dx)) Ha Hb
                  (Hbytes x Hx)) as E.
    cbv zeta in E. rewrite (all_symbols_exact a b (length x) q) in E by lia.
    apply E; lia.
  - apply changeBase2_all; auto; lia.
  - pose proof (changeBase2_all (x ++ y) dst a b (Z.of_nat (length dst))
                  Ha Hb) as E.
    cbv zeta in E. rewrite length_app in E.
    rewrite (all_symbols_add a b (length x) (length y) q) in E by lia.
    fold m in E. rewrite E.
    + by rewrite (digits_pack_app a b x y q m), <- app_assoc by (done || lia).
    + apply Hbytes. by apply Forall_app.
    + done.
    + lia.
Qed.

Lemma changeBase2_app_witness :
  exists ox oy,
    length ox = 4%nat /\ length oy = 2%nat
    /\ changeBase2 [104; 105; 33] 8 [0; 0; 0; 0] 4 6 = Ret (ox ++ [])
    /\ changeBase2 [7] 8 [0; 0] 2 6 = Ret (oy ++ [])
    /\ changeBase2 [104; 105; 33; 7] 8 [0; 0; 0; 0; 0; 0; 9] 7 6
       = Ret (ox ++ oy ++ [9]).
Proof.
  apply (changeBase2_app [104; 105; 33] [7] [0; 0; 0; 0; 0; 0; 9]
           [0; 0; 0; 0] [0; 0] 8 6 4).
  - lia.
  - lia.
  - repeat constructor; lia.
  - repeat constructor; lia.
  - by vm_compute.
  - vm_compute. lia.
  - cbn. lia.
  - vm_compute. lia.
Defined.

(** ** Encoding and decoding in place *)

Lemma inline_encode_decode (buf : list Z) (n : nat) (a b : Z) :
  1 <= b <= a -> a <= 8 ->
  Forall is_byte buf ->
  Forall (fun v => 0 <= v < 2 ^ a) (take n buf) ->
  (1 <= n <= length buf)%nat ->
  let m := all_symbols a b n in
  (m <= length buf)%nat ->
  let enc := digits b m (pack a 0 (take n buf)) ++ drop m buf in
  changeBase2Inline buf n a b true = Ret enc
  /\ exists dec,
       changeBase2Inline enc m b a false = Ret dec
       /\ take n dec = take n buf
       /\ drop m dec = drop m buf.
Proof.
  intros Hba Ha Hbuf Hfit Hn m Hcap enc.
  set (V := pack a 0 (take n buf)) in *.
  assert (length (take n buf) = n) as Hlen by (rewrite length_take; lia).
  pose proof (all_symbols_enough a b n ltac:(lia) ltac:(lia)) as Hm.
  fold m in Hm.
  assert (1 <= m)%nat as Hm1 by nia.
  assert (length enc = length buf) as Hlenc
    by (subst enc; rewrite length_app, length_digits, length_drop; lia).
  assert (take m enc = digits b m V) as Htake.
  { subst enc. rewrite <- (length_digits b m V) at 1. apply take_app_length. }
  assert (Forall is_byte enc) as Henc.
  { subst enc. apply Forall_app. split; [| by apply Forall_drop].
    apply (Forall_on _ _ _ (digits_range b m V ltac:(lia))).
    intros v Hv. apply (small_is_byte b); lia. }
  set (k := S (full_symbols b a (m - 1))).
  assert (Z.of_nat (m - 1) = Z.of_nat m - 1) as Hm' by lia.
  assert (n <= k /\ k <= m)%nat as [Hnk Hkm].
  { subst k. unfold full_symbols. rewrite Hm'.
    assert (Z.of_nat n - 1 <= (Z.of_nat m - 1) * b / a)
      by (apply Z.div_le_lower_bound; nia).
    assert ((Z.of_nat m - 1) * b / a <= Z.of_nat m - 1)
      by (apply Z.div_le_upper_bound; nia).
    lia. }
  split.
  - rewrite changeBase2Inline_spec; try done; try lia;
      rewrite inline_symbols_set by lia; done.
  - exists (digits a k (pack b 0 (take m enc)) ++ drop k enc).
    split; [| split].
    + rewrite changeBase2Inline_spec; try done; try lia;
        rewrite inline_symbols_clear by lia; fold k; [done | lia].
    + rewrite take_app_le by (rewrite length_digits; lia).
      rewrite digits_take, Htake by done.
      rewrite pack_digits, digits_land_ones by lia.
      rewrite <- Hlen at 1. apply digits_pack; [lia | done].
    + rewrite drop_app_ge by (rewrite length_digits; lia).
      rewrite length_digits, drop_drop.
      replace (k + (m - k))%nat with m by lia.
      subst enc. rewrite drop_app_ge by (rewrite length_digits; lia).
      by rewrite length_digits, Nat.sub_diag.
Qed.

(** X5: the in-place round trip as the name codecs use it.  For widths
    [b <= a] in 1..8 and [n >= 1] bytes that fit in [a] bits,
    [changeBase2Inline] from [a] to [b] bits with the flag set, followed on
    the [ceil(n*a/b)] symbols by [changeBase2Inline] from [b] to [a] bits
    with the flag clear, gives the [n] bytes back and leaves the buffer past
    the symbols as it was. *)
Theorem changeBase2Inline_round_trip (buf : list Z) (n : nat) (a b : Z) :
  1 <= b <= a -> a <= 8 ->
  Forall is_byte buf ->
  Forall (fun v => 0 <= v < 2 ^ a) (take n buf) ->
  (1 <= n <= length buf)%nat ->
  let m := all_symbols a b n in
  (m <= length buf)%nat ->
  exists enc dec,
    changeBase2Inline buf n a b true = Ret enc
    /\ changeBase2Inline enc m b a false = Ret dec
    /\ take n dec = take n buf
    /\ drop m dec = drop m buf.
Proof.
  intros Hba Ha Hbuf Hfit Hn m Hcap.
  destruct (inline_encode_decode buf n a b Hba Ha Hbuf Hfit Hn Hcap)
    as (Henc & dec & Hdec & Hn' & Hm').
  by eexists _, dec.
Qed.

Lemma changeBase2Inline_round_trip_witness :
  exists enc dec,
    changeBase2Inline [104; 105; 0; 9] 2 8 6 true = Ret enc
    /\ changeBase2Inline enc 3 6 8 false = Ret dec
    /\ take 2 dec = take 2 [104; 105; 0; 9]
    /\ drop 3 dec = drop 3 [104; 105; 0; 9].
Proof.
  apply (changeBase2Inline_round_trip [104; 105; 0; 9] 2 8 6).
  - lia.
  - lia.
  - repeat constructor; unfold is_byte; lia.
  - repeat constructor; lia.
  - cbn. lia.
  - vm_compute. lia.
Defined.

(** ** From bytes to text and back *)

Lemma B64ToAscii_symbols (syms rest : list Z) :
  Forall (fun v => 0 <= v <= 63) syms ->
  B64ToAscii (syms ++ rest) (length syms) = Ret (map b64_letter syms ++ rest).
Proof.
  intros Hsyms. unfold B64ToAscii. rewrite B64ToAscii_from_update.
  rewrite (update_from_start B64ToAscii_char b64_letter syms rest).
  - do 2 f_equal. apply (map_ext_on _ _ _ _ Hsyms). intros v Hv.
    apply byte_of_small, b64_check_elim, Hv.
  - apply (Forall_on _ _ _ Hsyms). intros v Hv. apply b64_check_elim, Hv.
Qed.

Lemma AsciiToB64_letters (syms rest : list Z) :
  Forall (fun v => 0 <= v <= 63) syms ->
  AsciiToB64 (map b64_letter syms ++ rest) (length syms) = Ret (syms ++ rest).
Proof.
  intros Hsyms. unfold AsciiToB64. rewrite AsciiToB64_to_update.
  rewrite <- (length_map b64_letter syms).
  rewrite (update_from_start AsciiToB64_char
             (fun c => from_ret (AsciiToB64_char c))).
  - do 2 f_equal. rewrite map_map. rewrite <- (map_id syms) at 2.
    apply (map_ext_on _ _ _ _ Hsyms). intros v Hv.
    destruct (b64_check_elim v Hv) as (_ & -> & _).
    apply byte_of_small. unfold is_byte, from_ret. lia.
  - apply Forall_map. apply (Forall_on _ _ _ Hsyms). intros v Hv.
    by destruct (b64_check_elim v Hv) as (_ & -> & _).
Qed.

Lemma b64_letter_in v : 0 <= v <= 63 -> In (b64_letter v) b64_alphabet.
Proof.
  intros Hv. unfold b64_letter. apply nth_In.
  change (length b64_alphabet) with 64%nat. lia.
Qed.

Lemma B32ToAscii_symbols (syms rest : list Z) :
  Forall (fun v => 0 <= v <= 31) syms ->
  B32ToAscii (syms ++ rest) (length syms) = Ret (map b32_letter syms ++ rest).
Proof.
  intros Hsyms. unfold B32ToAscii. rewrite B32ToAscii_from_update.
  rewrite (update_from_start _ B32ToAscii_char syms rest).
  - do 2 f_equal. apply (map_ext_on _ _ _ _ Hsyms). intros v Hv.
    destruct (b32_check_elim v Hv) as (-> & _ & _ & Hb).
    by apply byte_of_small.
  - by apply Forall_forall.
Qed.

Lemma AsciiToB32_letters (f : Z -> Z) (syms rest : list Z) :
  Forall (fun v => 0 <= v <= 31) syms ->
  (forall v, 0 <= v <= 31 -> AsciiToB32_char (f (b32_letter v)) = v) ->
  AsciiToB32 (map f (map b32_letter syms) ++ rest) (length syms)
  = Ret (syms ++ rest).
Proof.
  intros Hsyms Hf. unfold AsciiToB32. rewrite AsciiToB32_to_update.
  replace (length syms) with (length (map f (map b32_letter syms)))
    by (by rewrite !length_map).
  rewrite (update_from_start _ AsciiToB32_char).
  - do 2 f_equal. rewrite !map_map. rewrite <- (map_id syms) at 2.
    apply (map_ext_on _ _ _ _ Hsyms). intros v Hv. rewrite Hf by done.
    apply byte_of_small. unfold is_byte. lia.
  - by apply Forall_forall.
Qed.

Lemma digits_below b m V bound :
  0 <= b -> 2 ^ b = bound + 1 ->
  Forall (fun v => 0 <= v <= bound) (digits b m V).
Proof.
  intros Hb Hbound. apply (Forall_on _ _ _ (digits_range b m V Hb)).
  intros v Hv. lia.
Qed.

Lemma bytes_fit (l : list Z) :
  Forall is_byte l -> Forall (fun v => 0 <= v < 2 ^ 8) l.
Proof. intros Hl. apply (Forall_on _ _ _ Hl). by unfold is_byte. Qed.

(** X6: the base-64 text of [n >= 1] bytes and back, step by step as a name
    codec does it in one buffer: [changeBase2Inline] from 8 to 6 bits with the
    flag set and [B64ToAscii] give [ceil(8n/6)] characters, all of the
    alphabet [,-0-9A-Za-z]; [AsciiToB64] and [changeBase2Inline] from 6 to 8
    bits with the flag clear give the [n] bytes back. *)
Theorem base64_text_round_trip (buf : list Z) (n : nat) :
  Forall is_byte buf ->
  (1 <= n <= length buf)%nat ->
  let m := all_symbols 8 6 n in
  (m <= length buf)%nat ->
  exists enc text dec,
    changeBase2Inline buf n 8 6 true = Ret enc
    /\ B64ToAscii enc m = Ret text
    /\ Forall (fun c => In c b64_alphabet) (take m text)
    /\ AsciiToB64 text m = Ret enc
    /\ changeBase2Inline enc m 6 8 false = Ret dec
    /\ take n dec = take n buf.
Proof.
  intros Hbuf Hn m Hcap.
  destruct (inline_encode_decode buf n 8 6 ltac:(lia) ltac:(lia) Hbuf
              (bytes_fit _ ltac:(by apply Forall_take)) Hn Hcap)
    as (Henc & dec & Hdec & Hn' & _).
  fold m in Henc, Hdec.
  set (syms := digits 6 m (pack 8 0 (take n buf))) in *.
  assert (Forall (fun v => 0 <= v <= 63) syms) as Hsyms
    by (apply digits_below; lia).
  assert (length syms = m) as Hlen by apply length_digits.
  exists (syms ++ drop m buf), (map b64_letter syms ++ drop m buf), dec.
  split; [done |].
  split; [rewrite <- Hlen; by apply B64ToAscii_symbols |].
  split; [| split; [rewrite <- Hlen; by apply AsciiToB64_letters | done]].
  rewrite <- Hlen, <- (length_map b64_letter syms), take_app_length.
  apply Forall_map. apply (Forall_on _ _ _ Hsyms). intros v Hv.
  by apply b64_letter_in.
Qed.

Lemma base64_text_round_trip_witness :
  exists enc text dec,
    changeBase2Inline [104; 105; 0; 9] 2 8 6 true = Ret enc
    /\ B64ToAscii enc 3 = Ret text
    /\ Forall (fun c => In c b64_alphabet) (take 3 text)
    /\ AsciiToB64 text 3 = Ret enc
    /\ changeBase2Inline enc 3 6 8 false = Ret dec
    /\ take 2 dec = take 2 [104; 105; 0; 9].
Proof.
  apply (base64_text_round_trip [104; 105; 0; 9] 2).
  - repeat constructor; unfold is_byte; lia.
  - cbn. lia.
  - vm_compute. lia.
Defined.

(** X7: the base-32 text of [n >= 1] bytes and back: [changeBase2Inline] from
    8 to 5 bits with the flag set and [B32ToAscii] give [ceil(8n/5)]
    characters, each an uppercase letter or a digit 2..7; [AsciiToB32], given
    that text or the same text in lowercase, and [changeBase2Inline] from 5
    to 8 bits with the flag clear give the [n] bytes back. *)
Theorem base32_text_round_trip (buf : list Z) (n : nat) :
  Forall is_byte buf ->
  (1 <= n <= length buf)%nat ->
  let m := all_symbols 8 5 n in
  (m <= length buf)%nat ->
  exists enc text dec,
    changeBase2Inline buf n 8 5 true = Ret enc
    /\ B32ToAscii enc m = Ret text
    /\ Forall (fun c => chr "A" <= c <= chr "Z" \/ chr "2" <= c <= chr "7")
         (take m text)
    /\ AsciiToB32 text m = Ret enc
    /\ AsciiToB32 (map lowercase (take m text) ++ drop m text) m = Ret enc
    /\ changeBase2Inline enc m 5 8 false = Ret dec
    /\ take n dec = take n buf.
Proof.
  intros Hbuf Hn m Hcap.
  destruct (inline_encode_decode buf n 8 5 ltac:(lia) ltac:(lia) Hbuf
              (bytes_fit _ ltac:(by apply Forall_take)) Hn Hcap)
    as (Henc & dec & Hdec & Hn' & _).
  fold m in Henc, Hdec.
  set (syms := digits 5 m (pack 8 0 (take n buf))) in *.
  assert (Forall (fun v => 0 <= v <= 31) syms) as Hsyms
    by (apply digits_below; lia).
  assert (length syms = m) as Hlen by apply length_digits.
  assert (take m (map b32_letter syms ++ drop m buf) = map b32_letter syms)
    as Htake
    by (rewrite <- Hlen, <- (length_map b32_letter syms);
        apply take_app_length).
  assert (drop m (map b32_letter syms ++ drop m buf) = drop m buf) as Hdrop
    by (rewrite <- Hlen at 1; rewrite <- (length_map b32_letter syms);
        apply drop_app_length).
  exists (syms ++ drop m buf), (map b32_letter syms ++ drop m buf), dec.
  rewrite Htake, Hdrop.
  split; [done |].
  split; [rewrite <- Hlen; by apply B32ToAscii_symbols |].
  split; [| split; [| split; [| done]]].
  - apply Forall_map. apply (Forall_on _ _ _ Hsyms). intros v Hv.
    unfold b32_letter, chr. cbn. destruct (Z.ltb_spec v 26); lia.
  - rewrite <- Hlen, <- (map_id (map b32_letter syms)).
    apply AsciiToB32_letters; [done |].
    intros v Hv. apply b32_check_elim, Hv.
  - rewrite <- Hlen. apply AsciiToB32_letters; [done |].
    intros v Hv. apply b32_check_elim, Hv.
Qed.

Lemma base32_text_round_trip_witness :
  exists enc text dec,
    changeBase2Inline [104; 105; 0; 0; 9] 2 8 5 true = Ret enc
    /\ B32ToAscii enc 4 = Ret text
    /\ Forall (fun c => chr "A" <= c <= chr "Z" \/ chr "2" <= c <= chr "7")
         (take 4 text)
    /\ AsciiToB32 text 4 = Ret enc
    /\ AsciiToB32 (map lowercase (take 4 text) ++ drop 4 text) 4 = Ret enc
    /\ changeBase2Inline enc 4 5 8 false = Ret dec
    /\ take 2 dec = take 2 [104; 105; 0; 0; 9].
Proof.
  apply (base32_text_round_trip [104; 105; 0; 0; 9] 2).
  - repeat constructor; unfold is_byte; lia.
  - cbn. lia.
  - vm_compute. lia.
Defined.

(** ** The standard base-64 decoder, continued *)

Lemma B64StandardDecode_from_start inp :
  B64StandardDecode inp = B64StandardDecode_from 1 [] inp.
Proof. done. Qed.

Lemma B64StandardDecode_loop_equals (x y : list Z) :
  forall buf out,
    B64StandardDecode_loop (x ++ chr "=" :: y) buf out
    = B64StandardDecode_loop x buf out.
Proof.
  induction x as [| v x IH]; intros buf out; [done |].
  cbn [app B64StandardDecode_loop].
  destruct (v >? chr "z"); [done |].
  destruct (load d (Z.to_nat v)) as [c | |]; [| done | done].
  rewrite !bind_ret.
  destruct (c =? WHITESPACE); [apply IH |].
  destruct (c =? INVALID); [done |].
  destruct (c =? EQUALS); [done |].
  destruct (negb _); apply IH.
Qed.

(** X8: the decoder never looks past the first '='.  Whatever follows an
    '=' sign, valid or not, [B64StandardDecode] returns what it returns on
    the input cut before that sign. *)
Theorem B64StandardDecode_stops_at_equals (x y : list Z) :
  B64StandardDecode (x ++ chr "=" :: y) = B64StandardDecode x.
Proof.
  unfold B64StandardDecode. by rewrite B64StandardDecode_loop_equals.
Qed.

Lemma B64StandardDecode_loop_tab (x y : list Z) :
  forall buf out,
    B64StandardDecode_loop (x ++ 9 :: y) buf out
    = B64StandardDecode_loop (x ++ y) buf out.
Proof.
  induction x as [| v x IH]; intros buf out; [done |].
  cbn [app B64StandardDecode_loop].
  destruct (v >? chr "z"); [done |].
  destruct (load d (Z.to_nat v)) as [c | |]; [| done | done].
  rewrite !bind_ret.
  destruct (c =? WHITESPACE); [apply IH |].
  destruct (c =? INVALID); [done |].
  destruct (c =? EQUALS); [done |].
  destruct (negb _); apply IH.
Qed.

(** X9: a tab is transparent.  A horizontal tab anywhere in the input
    changes neither the return value nor the bytes stored by
    [B64StandardDecode]. *)
Theorem B64StandardDecode_skips_tab (x y : list Z) :
  B64StandardDecode (x ++ 9 :: y) = B64StandardDecode (x ++ y).
Proof.
  unfold B64StandardDecode. by rewrite B64StandardDecode_loop_tab.
Qed.

(** X10: the return value on every input.  [B64StandardDecode] returns
    [true] exactly when every byte before the first '=' is a character of
    the standard alphabet [A-Za-z0-9+/] or a tab; the number and grouping of
    the characters play no part. *)
Theorem B64StandardDecode_return_value (inp : list Z) :
  Forall is_byte inp ->
  exists out, B64StandardDecode inp = Ret (accepted inp, out).
Proof. apply B64StandardDecode_returns. Qed.

Lemma B64StandardDecode_return_value_witness :
  exists out,
    B64StandardDecode [97; 71; 107; 42] = Ret (accepted [97; 71; 107; 42], out).
Proof.
  apply (B64StandardDecode_return_value [97; 71; 107; 42]).
  repeat constructor; unfold is_byte; lia.
Defined.

(** ** Decoding standard base-64 text *)

Lemma list_ind3 (P : list Z -> Prop) :
  P [] -> (forall a, P [a]) -> (forall a b, P [a; b]) ->
  (forall a b c l, P l -> P (a :: b :: c :: l)) ->
  forall l, P l.
Proof.
  intros H0 H1 H2 H3 l.
  assert (forall n l, (length l <= n)%nat -> P l) as Hn.
  { clear l. induction n as [| n IH]; intros l Hl.
    - destruct l; [done | cbn in Hl; lia].
    - destruct l as [| a [| b [| c l]]]; try done.
      apply H3, IH. cbn in Hl. lia. }
  by apply (Hn (length l)).
Qed.

Lemma lor_disjoint x v :
  0 <= x -> 0 <= v < 64 -> Z.lor (x * 64) v = x * 64 + v.
Proof.
  intros Hx Hv. symmetry.
  rewrite <- Z.lxor_lor, Z.add_nocarry_lxor; try done.
  all: change 64 with (2 ^ 6); rewrite <- Z.shiftl_mul_pow2 by lia;
    apply Z.bits_inj'; intros i Hi;
    rewrite Z.land_spec, Z.testbit_0_l, Z.shiftl_spec by done;
    destruct (Z.lt_ge_cases i 6);
    [by rewrite (Z.testbit_neg_r x) by lia
    | by rewrite (testbit_small 6 v), andb_false_r by lia].
Qed.

Lemma push_six buf v :
  0 <= buf < 2 ^ 24 -> 0 <= v < 64 ->
  Z.lor (ulong_of (Z.shiftl buf 6)) v = buf * 64 + v.
Proof.
  intros Hbuf Hv. rewrite Z.shiftl_mul_pow2 by lia.
  change (2 ^ 6) with 64. unfold ulong_of.
  rewrite Z.mod_small by (change (2 ^ 24) with 16777216 in Hbuf;
                          change (2 ^ 64) with 18446744073709551616; lia).
  apply lor_disjoint; lia.
Qed.

Lemma land_flag k x :
  0 <= k -> 0 <= x < 2 ^ (k + 1) ->
  (Z.land x (2 ^ k) =? 0) = (x <? 2 ^ k).
Proof.
  intros Hk Hx. destruct (Z.ltb_spec x (2 ^ k)) as [Hlt | Hge].
  - apply Z.eqb_eq. apply Z.bits_inj'. intros i Hi.
    rewrite Z.land_spec, Z.testbit_0_l, Z.pow2_bits_eqb by done.
    destruct (Z.eqb_spec k i) as [<- | Hne]; [| by rewrite andb_false_r].
    by rewrite (testbit_small k x) by lia.
  - apply Z.eqb_neq. intros E.
    apply (f_equal (fun z => Z.testbit z k)) in E.
    rewrite Z.land_spec, Z.testbit_0_l, Z.pow2_bits_eqb, Z.eqb_refl in E
      by done.
    rewrite andb_true_r in E.
    assert (Z.testbit x k = true); [| congruence].
    apply Z.testbit_true; [done |].
    assert (x / 2 ^ k = 1); [| by replace (x / 2 ^ k) with 1].
    rewrite Z.pow_add_r in Hx by lia.
    assert (0 < 2 ^ k) by (apply Z.pow_pos_nonneg; lia).
    change (2 ^ 1) with 2 in Hx.
    symmetry. apply (Z.div_unique x (2 ^ k) 1 (x - 2 ^ k)); lia.
Qed.

Lemma B64StandardDecode_loop_letter (v buf : Z) (inp out : list Z) :
  0 <= v < 64 -> 0 <= buf < 2 ^ 19 ->
  B64StandardDecode_loop (b64_standard_letter v :: inp) buf out
  = if buf * 64 + v <? 2 ^ 24
    then B64StandardDecode_loop inp (buf * 64 + v) out
    else B64StandardDecode_loop inp 1
           (out ++ [byte_of (Z.shiftr (buf * 64 + v) 16);
                    byte_of (Z.shiftr (buf * 64 + v) 8);
                    byte_of (buf * 64 + v)]).
Proof.
  intros Hv Hbuf.
  assert (b64_standard_check v = true) as Hc
    by (apply (range_forallb b64_standard_check 64); [by vm_compute | lia]).
  unfold b64_standard_check in Hc. apply andb_prop in Hc as [Hz Hd].
  apply negb_true_iff in Hz.
  cbn [B64StandardDecode_loop]. rewrite Hz.
  destruct (load d (Z.to_nat (b64_standard_letter v))) as [c | |];
    [| done | done].
  apply Z.eqb_eq in Hd. subst c. rewrite bind_ret.
  unfold WHITESPACE, INVALID, EQUALS.
  rewrite !(proj2 (Z.eqb_neq v _)) by lia.
  change (2 ^ 19) with 524288 in Hbuf.
  rewrite push_six by (change (2 ^ 24) with 16777216; lia).
  change 16777216 with (2 ^ 24). rewrite land_flag.
  - by destruct (buf * 64 + v <? 2 ^ 24).
  - lia.
  - change (2 ^ (24 + 1)) with 33554432. lia.
Qed.

Ltac six_bits :=
  match goal with
  | |- 0 <= _ < 64 => Z.div_mod_to_equations; lia
  | |- 0 <= _ < 2 ^ 19 => change (2 ^ 19) with 524288;
                          Z.div_mod_to_equations; lia
  end.

Lemma B64StandardDecode_from_encode (pad : bool) (x : list Z) :
  Forall is_byte x ->
  forall out,
    B64StandardDecode_from 1 out (b64_standard_encode pad x)
    = Ret (true, out ++ x).
Proof.
  induction x as [| a | a b | a b c x IH] using list_ind3; intros Hx out.
  - cbn. by rewrite app_nil_r.
  - inversion_clear Hx as [| ? ? Ha _]. unfold is_byte in Ha.
    unfold B64StandardDecode_from. cbn [b64_standard_encode app].
    rewrite !B64StandardDecode_loop_letter by six_bits.
    rewrite !(proj2 (Z.ltb_lt _ (2 ^ 24)))
      by (change (2 ^ 24) with 16777216; Z.div_mod_to_equations; lia).
    assert (B64StandardDecode_loop (if pad then [chr "="; chr "="] else [])
              ((1 * 64 + a / 4) * 64 + a mod 4 * 16) out
            = Ret (true, (1 * 64 + a / 4) * 64 + a mod 4 * 16, out)) as ->
      by (by destruct pad).
    rewrite bind_ret. cbv beta iota. cbn [negb].
    change 262144 with (2 ^ 18). change 4096 with (2 ^ 12).
    rewrite land_flag, (proj2 (Z.ltb_lt _ (2 ^ 18)))
      by (change (2 ^ (18 + 1)) with 524288; change (2 ^ 18) with 262144;
          Z.div_mod_to_equations; lia).
    rewrite land_flag, (proj2 (Z.ltb_ge _ (2 ^ 12)))
      by (change (2 ^ (12 + 1)) with 8192; change (2 ^ 12) with 4096;
          Z.div_mod_to_equations; lia).
    cbn [negb]. do 4 f_equal.
    rewrite Z.shiftr_div_pow2 by lia. unfold byte_of.
    change (2 ^ 4) with 16. Z.div_mod_to_equations. lia.
  - inversion_clear Hx as [| ? ? Ha Hx1].
    inversion_clear Hx1 as [| ? ? Hb _]. unfold is_byte in Ha, Hb.
    unfold B64StandardDecode_from. cbn [b64_standard_encode app].
    rewrite !B64StandardDecode_loop_letter by six_bits.
    rewrite !(proj2 (Z.ltb_lt _ (2 ^ 24)))
      by (change (2 ^ 24) with 16777216; Z.div_mod_to_equations; lia).
    set (buf := ((1 * 64 + a / 4) * 64 + (a mod 4 * 16 + b / 16)) * 64
                + b mod 16 * 4).
    assert (buf = 262144 + 1024 * a + 4 * b) as Hbuf
      by (subst buf; Z.div_mod_to_equations; lia).
    assert (B64StandardDecode_loop (if pad then [chr "="] else []) buf out
            = Ret (true, buf, out)) as -> by (by destruct pad).
    rewrite bind_ret. cbv beta iota. cbn [negb].
    change 262144 with (2 ^ 18) at 1.
    rewrite land_flag, (proj2 (Z.ltb_ge _ (2 ^ 18)))
      by (change (2 ^ (18 + 1)) with 524288; change (2 ^ 18) with 262144;
          lia).
    cbn [negb]. do 3 f_equal.
    rewrite !Z.shiftr_div_pow2 by lia. unfold byte_of.
    change (2 ^ 10) with 1024. change (2 ^ 2) with 4.
    f_equal; [| f_equal]; Z.div_mod_to_equations; lia.
  - inversion_clear Hx as [| ? ? Ha Hx1].
    inversion_clear Hx1 as [| ? ? Hb Hx2].
    inversion_clear Hx2 as [| ? ? Hc Hx]. unfold is_byte in Ha, Hb, Hc.
    unfold B64StandardDecode_from. cbn [b64_standard_encode app].
    rewrite !B64StandardDecode_loop_letter by six_bits.
    rewrite !(proj2 (Z.ltb_lt _ (2 ^ 24)))
      by (change (2 ^ 24) with 16777216; Z.div_mod_to_equations; lia).
    set (buf := (((1 * 64 + a / 4) * 64 + (a mod 4 * 16 + b / 16)) * 64
                 + (b mod 16 * 4 + c / 64)) * 64 + c mod 64).
    assert (buf = 16777216 + 65536 * a + 256 * b + c) as Hbuf
      by (subst buf; Z.div_mod_to_equations; lia).
    rewrite (proj2 (Z.ltb_ge buf (2 ^ 24)))
      by (change (2 ^ 24) with 16777216; lia).
    assert ([byte_of (Z.shiftr buf 16); byte_of (Z.shiftr buf 8); byte_of buf]
            = [a; b; c]) as ->.
    { rewrite !Z.shiftr_div_pow2 by lia. unfold byte_of.
      change (2 ^ 16) with 65536. change (2 ^ 8) with 256.
      f_equal; [| f_equal; [| f_equal]]; Z.div_mod_to_equations; lia. }
    specialize (IH Hx (out ++ [a; b; c])).
    unfold B64StandardDecode_from in IH. rewrite IH.
    by rewrite <- app_assoc.
Qed.

(** X11: the decoder inverts the standard encoding.  For every byte string,
    [B64StandardDecode] applied to its standard base-64 text, with or
    without the '=' padding, returns [true] and stores exactly the bytes. *)
Theorem B64StandardDecode_inverts_encoding (pad : bool) (x : list Z) :
  Forall is_byte x ->
  B64StandardDecode (b64_standard_encode pad x) = Ret (true, x).
Proof.
  intros Hx. rewrite B64StandardDecode_from_start.
  by rewrite B64StandardDecode_from_encode.
Qed.

Lemma B64StandardDecode_inverts_encoding_witness :
  B64StandardDecode (b64_standard_encode true [104; 101; 108; 108; 111])
  = Ret (true, [104; 101; 108; 108; 111]).
Proof.
  apply (B64StandardDecode_inverts_encoding true [104; 101; 108; 108; 111]).
  repeat constructor; unfold is_byte; lia.
Defined.

(** ** Decoding from one place to another *)

Lemma AsciiToB64_to_convert length mem out inp :
  AsciiToB64_to length mem out inp
  = convert_to AsciiToB64_char length mem out inp.
Proof.
  revert mem out inp. induction length as [| n IH]; intros; [done |].
  cbn. destruct (load mem inp) as [ch | |]; [| done | done]. cbn.
  destruct (AsciiToB64_char ch) as [ch' | |]; [| done | done]. cbn.
  destruct (store mem out ch'); [| done | done]. cbn. apply IH.
Qed.

Lemma AsciiToB32_to_convert length mem out inp :
  AsciiToB32_to length mem out inp
  = convert_to (fun ch => Ret (AsciiToB32_char ch)) length mem out inp.
Proof.
  revert mem out inp. induction length as [| n IH]; intros; [done |].
  cbn. destruct (load mem inp) as [ch | |]; [| done | done]. cbn.
  destruct (store mem out _); [| done | done]. cbn. apply IH.
Qed.

Section Convert.

Variable body : Z -> outcome Z.
Variable f : Z -> Z.
Hypothesis body_total : forall v, is_byte v -> body v = Ret (f v).

Lemma convert_to_spec (len : nat) :
  forall mem out inp,
    Forall is_byte mem ->
    (inp + len <= length mem)%nat -> (out + len <= length mem)%nat ->
    (out <= inp \/ inp + len <= out)%nat ->
    exists mem',
      convert_to body len mem out inp = Ret mem'
      /\ length mem' = length mem
      /\ Forall is_byte mem'
      /\ (forall i v, (i < len)%nat -> mem !! (inp + i)%nat = Some v ->
            mem' !! (out + i)%nat = Some (byte_of (f v)))
      /\ (forall j, (j < out \/ out + len <= j)%nat -> mem' !! j = mem !! j).
Proof.
  induction len as [| len IH]; intros mem out inp Hmem Hin Hout Hsep.
  - exists mem. cbn. repeat split; try done. intros; lia.
  - destruct (lookup_lt_is_Some_2 mem inp ltac:(lia)) as [v0 Hv0].
    assert (is_byte v0) as Hb0
      by (rewrite Forall_lookup in Hmem; by apply (Hmem inp)).
    set (mem1 := <[out := byte_of (f v0)]> mem).
    assert (length mem1 = length mem) as Hlen1 by apply length_insert.
    assert (Forall is_byte mem1) as Hmem1.
    { apply Forall_insert; [done |]. unfold is_byte, byte_of.
      apply Z.mod_pos_bound. lia. }
    destruct (IH mem1 (S out) (S inp) Hmem1 ltac:(lia) ltac:(lia) ltac:(lia))
      as (mem' & Hrun & Hlen & Hbytes & Hcells & Hframe).
    exists mem'. split; [| split; [lia | split; [done | split]]].
    + cbn [convert_to]. unfold load. rewrite Hv0, bind_ret.
      rewrite body_total, bind_ret by done.
      unfold store. rewrite decide_True by lia. rewrite bind_ret.
      exact Hrun.
    + intros i v Hi Hv. destruct i as [| i].
      * rewrite Nat.add_0_r in *. rewrite Hframe by lia.
        subst mem1. rewrite list_lookup_insert_eq by lia.
        congruence.
      * replace (out + S i)%nat with (S out + i)%nat by lia.
        apply Hcells; [lia |]. subst mem1.
        rewrite list_lookup_insert_ne by lia.
        by replace (S inp + i)%nat with (inp + S i)%nat by lia.
    + intros j Hj. rewrite Hframe by lia. subst mem1.
      by rewrite list_lookup_insert_ne by lia.
Qed.

End Convert.

Lemma AsciiToB64_char_total v :
  is_byte v -> AsciiToB64_char v = Ret (from_ret (AsciiToB64_char v)).
Proof.
  intros Hv.
  assert (b64_text_check v = true) as Hc
    by (apply (range_forallb b64_text_check 256); [by vm_compute | done]).
  unfold b64_text_check in Hc.
  by destruct (AsciiToB64_char v).
Qed.

Lemma AsciiToB64_char_byte v :
  is_byte v -> is_byte (from_ret (AsciiToB64_char v)).
Proof.
  intros Hv.
  assert (b64_text_check v = true) as Hc
    by (apply (range_forallb b64_text_check 256); [by vm_compute | done]).
  unfold b64_text_check in Hc.
  destruct (AsciiToB64_char v) as [r | |]; [| done | done].
  apply andb_prop in Hc as [Hc _]. unfold is_byte, from_ret. lia.
Qed.

(** X12: [AsciiToB64] with separate pointers.  When the output does not
    start above the input ([out <= in]) or the two regions do not overlap,
    the [length] output cells get the decoded values of the input cells as
    they were before the call, and no other cell changes; decoding in place
    is the case [out = in]. *)
Theorem AsciiToB64_to_regions (mem : list Z) (out inp len : nat) :
  Forall is_byte mem ->
  (inp + len <= length mem)%nat -> (out + len <= length mem)%nat ->
  (out <= inp \/ inp + len <= out)%nat ->
  exists mem',
    AsciiToB64_to len mem out inp = Ret mem'
    /\ length mem' = length mem
    /\ (forall i v, (i < len)%nat -> mem !! (inp + i)%nat = Some v ->
          AsciiToB64_char v = Ret (from_ret (AsciiToB64_char v))
          /\ mem' !! (out + i)%nat = Some (from_ret (AsciiToB64_char v)))
    /\ (forall j, (j < out \/ out + len <= j)%nat -> mem' !! j = mem !! j).
Proof.
  intros Hmem Hin Hout Hsep. rewrite AsciiToB64_to_convert.
  destruct (convert_to_spec AsciiToB64_char
              (fun v => from_ret (AsciiToB64_char v)) AsciiToB64_char_total
              len mem out inp Hmem Hin Hout Hsep)
    as (mem' & Hrun & Hlen & _ & Hcells & Hframe).
  exists mem'. repeat split; try done.
  - apply AsciiToB64_char_total.
    rewrite Forall_lookup in Hmem. by apply (Hmem (inp + i)%nat).
  - rewrite (Hcells i v) by done. f_equal.
    apply byte_of_small, AsciiToB64_char_byte.
    rewrite Forall_lookup in Hmem. by apply (Hmem (inp + i)%nat).
Qed.

Lemma AsciiToB64_to_regions_witness :
  exists mem',
    AsciiToB64_to 2 [0; 0; 65; 97] 1 2 = Ret mem'
    /\ length mem' = length [0; 0; 65; 97]
    /\ (forall i v, (i < 2)%nat -> [0; 0; 65; 97] !! (2 + i)%nat = Some v ->
          AsciiToB64_char v = Ret (from_ret (AsciiToB64_char v))
          /\ mem' !! (1 + i)%nat = Some (from_ret (AsciiToB64_char v)))
    /\ (forall j, (j < 1 \/ 1 + 2 <= j)%nat ->
          mem' !! j = [0; 0; 65; 97] !! j).
Proof.
  apply (AsciiToB64_to_regions [0; 0; 65; 97] 1 2 2).
  - repeat constructor; unfold is_byte; lia.
  - cbn. lia.
  - cbn. lia.
  - lia.
Defined.

(** X13: [AsciiToB32] with separate pointers, under the same condition on
    the two regions: the output cells get the values of [AsciiToB32] of the
    input cells as they were, reduced to a byte, and no other cell
    changes. *)
Theorem AsciiToB32_to_regions (mem : list Z) (out inp len : nat) :
  Forall is_byte mem ->
  (inp + len <= length mem)%nat -> (out + len <= length mem)%nat ->
  (out <= inp \/ inp + len <= out)%nat ->
  exists mem',
    AsciiToB32_to len mem out inp = Ret mem'
    /\ length mem' = length mem
    /\ (forall i v, (i < len)%nat -> mem !! (inp + i)%nat = Some v ->
          mem' !! (out + i)%nat = Some (byte_of (AsciiToB32_char v)))
    /\ (forall j, (j < out \/ out + len <= j)%nat -> mem' !! j = mem !! j).
Proof.
  intros Hmem Hin Hout Hsep. rewrite AsciiToB32_to_convert.
  destruct (convert_to_spec (fun ch => Ret (AsciiToB32_char ch))
              AsciiToB32_char (fun v _ => eq_refl)
              len mem out inp Hmem Hin Hout Hsep)
    as (mem' & Hrun & Hlen & _ & Hcells & Hframe).
  by exists mem'.
Qed.

Lemma AsciiToB32_to_regions_witness :
  exists mem',
    AsciiToB32_to 2 [66; 51; 0; 0] 2 0 = Ret mem'
    /\ length mem' = length [66; 51; 0; 0]
    /\ (forall i v, (i < 2)%nat -> [66; 51; 0; 0] !! (0 + i)%nat = Some v ->
          mem' !! (2 + i)%nat = Some (byte_of (AsciiToB32_char v)))
    /\ (forall j, (j < 2 \/ 2 + 2 <= j)%nat ->
          mem' !! j = [66; 51; 0; 0] !! j).
Proof.
  apply (AsciiToB32_to_regions [66; 51; 0; 0] 2 0 2).
  - repeat constructor; unfold is_byte; lia.
  - cbn. lia.
  - cbn. lia.
  - lia.
Defined.

(** ** From text to symbols and back *)

Lemma b64_text_elim c :
  In c b64_alphabet ->
  exists v,
    0 <= v <= 63 /\ AsciiToB64_char c = Ret v /\ B64ToAscii_char v = Ret c
    /\ is_byte c.
Proof.
  intros Hin.
  assert (Forall is_byte b64_alphabet) as Halpha
    by (unfold is_byte; repeat constructor; by vm_compute).
  assert (is_byte c) as Hc by (rewrite Forall_forall in Halpha; by apply Halpha).
  assert (is_b64_text c = true) as Htext.
  { unfold is_b64_text. apply existsb_exists. exists c.
    split; [done | apply Z.eqb_refl]. }
  assert (b64_text_check c = true) as Hcheck
    by (apply (range_forallb b64_text_check 256); [by vm_compute | done]).
  unfold b64_text_check in Hcheck. rewrite Htext in Hcheck.
  destruct (AsciiToB64_char c) as [v | |]; [| done | done].
  cbn [negb orb] in Hcheck.
  apply andb_prop in Hcheck as [H1 H2]. apply andb_prop in H1 as [H0 H1].
  apply andb_prop in H2 as [H2 H3].
  destruct (B64ToAscii_char v) as [c' | |] eqn:E; [| done | done].
  apply Z.eqb_eq in H3. subst c'.
  exists v. split; [lia |]. split; [done |]. split; [done | exact Hc].
Qed.

(** X14: text of the file-name alphabet decodes to 6-bit symbols from which
    [B64ToAscii] gives the same text back: on the alphabet, [AsciiToB64]
    loses nothing. *)
Theorem B64_text_inverse (text rest : list Z) :
  Forall (fun c => In c b64_alphabet) text ->
  exists syms,
    AsciiToB64 (text ++ rest) (length text) = Ret (syms ++ rest)
    /\ length syms = length text
    /\ Forall (fun v => 0 <= v <= 63) syms
    /\ B64ToAscii (syms ++ rest) (length text) = Ret (text ++ rest).
Proof.
  intros Htext.
  set (dec := fun c => from_ret (AsciiToB64_char c)).
  assert (Forall (fun c => 0 <= dec c <= 63 /\ AsciiToB64_char c = Ret (dec c)
                           /\ B64ToAscii_char (dec c) = Ret c /\ is_byte c)
            text) as Hall.
  { apply (Forall_on _ _ _ Htext). intros c Hc.
    destruct (b64_text_elim c Hc) as (v & Hv & Hdec & Henc & Hb).
    subst dec. cbn beta. rewrite Hdec. cbn [from_ret]. by rewrite Henc. }
  exists (map dec text).
  split; [| split; [apply length_map | split]].
  - unfold AsciiToB64. rewrite AsciiToB64_to_update.
    rewrite (update_from_start AsciiToB64_char dec text rest).
    + do 2 f_equal. apply (map_ext_on _ _ _ _ Hall). intros c Hc.
      apply byte_of_small. unfold is_byte. lia.
    + apply (Forall_on _ _ _ Hall). by intros c (_ & Hc & _).
  - apply Forall_map. apply (Forall_on _ _ _ Hall). by intros c (Hc & _).
  - unfold B64ToAscii. rewrite B64ToAscii_from_update.
    rewrite <- (length_map dec text).
    rewrite (update_from_start B64ToAscii_char
               (fun v => from_ret (B64ToAscii_char v)) (map dec text) rest).
    + do 2 f_equal. rewrite map_map. rewrite <- (map_id text) at 2.
      apply (map_ext_on _ _ _ _ Hall). intros c (_ & _ & -> & Hb).
      by apply byte_of_small.
    + apply Forall_map. apply (Forall_on _ _ _ Hall).
      by intros c (_ & _ & -> & _).
Qed.

Lemma B64_text_inverse_witness :
  exists syms,
    AsciiToB64 [44; 90; 122; 7] 3 = Ret (syms ++ [7])
    /\ length syms = 3%nat
    /\ Forall (fun v => 0 <= v <= 63) syms
    /\ B64ToAscii (syms ++ [7]) 3 = Ret [44; 90; 122; 7].
Proof.
  apply (B64_text_inverse [44; 90; 122] [7]).
  repeat constructor; vm_compute; tauto.
Defined.

Lemma b32_text_elim c :
  is_b32_text c = true ->
  0 <= AsciiToB32_char c <= 31
  /\ B32ToAscii_char (AsciiToB32_char c) = toupper c
  /\ is_byte (toupper c).
Proof.
  intros Htext.
  assert (is_byte c) as Hc.
  { unfold is_b32_text, chr in Htext. cbn in Htext. unfold is_byte. lia. }
  assert (b32_text_check c = true) as Hcheck
    by (apply (range_forallb b32_text_check 256); [by vm_compute | done]).
  unfold b32_text_check in Hcheck. rewrite Htext in Hcheck.
  cbn [negb orb] in Hcheck. unfold is_byte.
  repeat (apply andb_prop in Hcheck; destruct Hcheck as [Hcheck ?]).
  repeat split; lia.
Qed.

(** X15: base-32 text is normalised to uppercase.  Text made of letters in
    either case and of the digits 2..7 decodes with [AsciiToB32] to 5-bit
    symbols, from which [B32ToAscii] gives the text with every letter in
    uppercase. *)
Theorem B32_text_uppercase (text rest : list Z) :
  Forall (fun c => is_b32_text c = true) text ->
  let syms := map AsciiToB32_char text in
  AsciiToB32 (text ++ rest) (length text) = Ret (syms ++ rest)
  /\ Forall (fun v => 0 <= v <= 31) syms
  /\ B32ToAscii (syms ++ rest) (length text) = Ret (map toupper text ++ rest).
Proof.
  intros Htext syms. subst syms. split; [| split].
  - unfold AsciiToB32. rewrite AsciiToB32_to_update.
    rewrite (update_from_start _ AsciiToB32_char text rest).
    + do 2 f_equal. apply (map_ext_on _ _ _ _ Htext). intros c Hc.
      apply byte_of_small. unfold is_byte.
      pose proof (b32_text_elim c Hc). lia.
    + by apply Forall_forall.
  - apply Forall_map. apply (Forall_on _ _ _ Htext). intros c Hc.
    by apply b32_text_elim.
  - unfold B32ToAscii. rewrite B32ToAscii_from_update.
    rewrite <- (length_map AsciiToB32_char text).
    rewrite (update_from_start _ B32ToAscii_char).
    + do 2 f_equal. rewrite map_map.
      apply (map_ext_on _ _ _ _ Htext). intros c Hc.
      destruct (b32_text_elim c Hc) as (_ & -> & Hb).
      by apply byte_of_small.
    + by apply Forall_forall.
Qed.

Lemma B32_text_uppercase_witness :
  AsciiToB32 [97; 66; 55; 9] 3 = Ret ([0; 1; 31] ++ [9])
  /\ Forall (fun v => 0 <= v <= 31) [0; 1; 31]
  /\ B32ToAscii ([0; 1; 31] ++ [9]) 3 = Ret ([65; 66; 55] ++ [9]).
Proof.
  apply (B32_text_uppercase [97; 66; 55] [9]).
  repeat constructor.
Defined.

(** ** Groups of four characters *)

Lemma B64StandardDecode_loop_group (a b c : Z) (inp out : list Z) :
  is_byte a -> is_byte b -> is_byte c ->
  B64StandardDecode_loop
    (b64_standard_letter (a / 4)
       :: b64_standard_letter (a mod 4 * 16 + b / 16)
       :: b64_standard_letter (b mod 16 * 4 + c / 64)
       :: b64_standard_letter (c mod 64) :: inp) 1 out
  = B64StandardDecode_loop inp 1 (out ++ [a; b; c]).
Proof.
  unfold is_byte. intros Ha Hb Hc.
  rewrite !B64StandardDecode_loop_letter by six_bits.
  rewrite !(proj2 (Z.ltb_lt _ (2 ^ 24)))
    by (change (2 ^ 24) with 16777216; Z.div_mod_to_equations; lia).
  set (buf := (((1 * 64 + a / 4) * 64 + (a mod 4 * 16 + b / 16)) * 64
               + (b mod 16 * 4 + c / 64)) * 64 + c mod 64).
  assert (buf = 16777216 + 65536 * a + 256 * b + c) as Hbuf
    by (subst buf; Z.div_mod_to_equations; lia).
  rewrite (proj2 (Z.ltb_ge buf (2 ^ 24)))
    by (change (2 ^ 24) with 16777216; lia).
  do 2 f_equal.
  rewrite !Z.shiftr_div_pow2 by lia. unfold byte_of.
  change (2 ^ 16) with 65536. change (2 ^ 8) with 256.
  f_equal; [| f_equal; [| f_equal]]; Z.div_mod_to_equations; lia.
Qed.

Lemma B64StandardDecode_loop_groups (pad : bool) (x : list Z) :
  Forall is_byte x ->
  (exists k, length x = (3 * k)%nat) ->
  forall inp out,
    B64StandardDecode_loop (b64_standard_encode pad x ++ inp) 1 out
    = B64StandardDecode_loop inp 1 (out ++ x).
Proof.
  induction x as [| a | a b | a b c x IH] using list_ind3;
    intros Hx [k Hk] inp out; cbn [length] in Hk; try lia.
  - cbn [b64_standard_encode app]. by rewrite app_nil_r.
  - inversion_clear Hx as [| ? ? Ha Hx1].
    inversion_clear Hx1 as [| ? ? Hb Hx2].
    inversion_clear Hx2 as [| ? ? Hc Hx].
    cbn [b64_standard_encode app].
    rewrite B64StandardDecode_loop_group by done.
    rewrite IH; [| done | exists (k - 1)%nat; lia].
    by rewrite <- app_assoc.
Qed.

Lemma B64StandardDecode_loop_prefix (inp : list Z) :
  forall buf out,
    B64StandardDecode_loop inp buf out
    = match B64StandardDecode_loop inp buf [] with
      | Ret (ok, buf', out') => Ret (ok, buf', out ++ out')
      | OutOfBounds => OutOfBounds
      | Diverges => Diverges
      end.
Proof.
  induction inp as [| v inp IH]; intros buf out.
  - cbn. by rewrite app_nil_r.
  - cbn [B64StandardDecode_loop].
    destruct (v >? chr "z"); [by rewrite app_nil_r |].
    destruct (load d (Z.to_nat v)) as [c | |]; [| done | done].
    rewrite !bind_ret.
    destruct (c =? WHITESPACE); [apply IH |].
    destruct (c =? INVALID); [by rewrite app_nil_r |].
    destruct (c =? EQUALS); [by rewrite app_nil_r |].
    destruct (negb _); [| apply IH].
    rewrite (IH 1 (out ++ _)), (IH 1 ([] ++ _)).
    destruct (B64StandardDecode_loop inp 1 []) as [[[ok buf'] out'] | |];
      [| done | done].
    by rewrite <- app_assoc.
Qed.

Lemma B64StandardDecode_from_prefix (buf : Z) (out inp : list Z) :
  B64StandardDecode_from buf out inp
  = with_prefix out (B64StandardDecode_from buf [] inp).
Proof.
  unfold B64StandardDecode_from. rewrite B64StandardDecode_loop_prefix.
  destruct (B64StandardDecode_loop inp buf []) as [[[ok buf'] out'] | |];
    [| done | done].
  rewrite !bind_ret. cbv beta iota. unfold with_prefix.
  destruct (negb ok); [done |].
  destruct (negb _); [by rewrite <- app_assoc |].
  destruct (negb _); [by rewrite <- app_assoc | done].
Qed.

(** X16: complete groups decode on their own.  When the text of a byte
    string [x] of [3k] bytes is followed by any input [rest],
    [B64StandardDecode] stores [x] and goes on as it does on [rest] alone:
    the return value is that of [rest] and the bytes of [rest] follow [x];
    in particular the bytes decoded before an invalid character stay
    stored. *)
Theorem B64StandardDecode_groups (pad : bool) (x rest : list Z) (k : nat) :
  Forall is_byte x -> length x = (3 * k)%nat ->
  B64StandardDecode (b64_standard_encode pad x ++ rest)
  = with_prefix x (B64StandardDecode rest).
Proof.
  intros Hx Hk.
  change (B64StandardDecode_from 1 [] (b64_standard_encode pad x ++ rest)
          = with_prefix x (B64StandardDecode_from 1 [] rest)).
  rewrite <- B64StandardDecode_from_prefix.
  unfold B64StandardDecode_from.
  by rewrite B64StandardDecode_loop_groups by eauto.
Qed.

Lemma B64StandardDecode_groups_witness :
  B64StandardDecode (b64_standard_encode true [104; 105; 33] ++ [42])
  = with_prefix [104; 105; 33] (B64StandardDecode [42]).
Proof.
  apply (B64StandardDecode_groups true [104; 105; 33] [42] 1).
  - repeat constructor; unfold is_byte; lia.
  - done.
Defined.

(** ** The room the decoder needs *)

Lemma buf_ok_pending buf :
  buf_ok buf -> 0 <= pending buf <= 3 /\ 0 <= buf < 2 ^ 19.
Proof.
  unfold buf_ok, pending. change (2 ^ 19) with 524288. intros H.
  destruct (Z.ltb_spec buf 64), (Z.ltb_spec buf 4096),
    (Z.ltb_spec buf 262144); lia.
Qed.

Lemma B64StandardDecode_loop_room (inp : list Z) :
  Forall is_byte inp ->
  forall buf out,
    buf_ok buf -> Forall is_byte out ->
    exists ok buf' out',
      B64StandardDecode_loop inp buf out = Ret (ok, buf', out')
      /\ buf_ok buf' /\ Forall is_byte out'
      /\ 4 * Z.of_nat (length out') + 3 * pending buf'
         <= 4 * Z.of_nat (length out) + 3 * pending buf
            + 3 * Z.of_nat (length inp).
Proof.
  induction 1 as [| v inp Hv _ IH]; intros buf out Hbuf Hout.
  - exists true, buf, out. cbn. repeat split; try done. lia.
  - pose proof (buf_ok_pending buf Hbuf) as [Hp Hrange].
    assert (d_value_check v = true) as Hd
      by (apply (range_forallb d_value_check 256); [by vm_compute | done]).
    unfold d_value_check in Hd.
    cbn [B64StandardDecode_loop length].
    destruct (v >? chr "z").
    { exists false, buf, out. repeat split; try done. lia. }
    destruct (load d (Z.to_nat v)) as [c | |]; [| done | done].
    rewrite bind_ret. cbn [orb] in Hd.
    destruct (Z.eqb_spec c WHITESPACE).
    { destruct (IH buf out Hbuf Hout) as (ok & buf' & out' & -> & ? & ? & ?).
      exists ok, buf', out'. repeat split; try done. lia. }
    destruct (Z.eqb_spec c INVALID).
    { exists false, buf, out. repeat split; try done. lia. }
    destruct (Z.eqb_spec c EQUALS).
    { exists true, buf, out. repeat split; try done. lia. }
    unfold WHITESPACE, INVALID, EQUALS in *.
    change (2 ^ 19) with 524288 in Hrange.
    rewrite push_six by (change (2 ^ 24) with 16777216; lia).
    change 16777216 with (2 ^ 24).
    rewrite land_flag by (change (2 ^ (24 + 1)) with 33554432; lia).
    change (2 ^ 24) with 16777216.
    unfold buf_ok, pending in Hbuf, Hp.
    destruct (Z.ltb_spec (buf * 64 + c) 16777216) as [Hlt | Hge]; cbn [negb].
    + destruct (IH (buf * 64 + c) out) as (ok & buf' & out' & -> & ? & ? & Hle);
        [unfold buf_ok; lia | done |].
      exists ok, buf', out'. repeat split; try done.
      unfold pending in Hle |- *.
      destruct (Z.ltb_spec buf 64), (Z.ltb_spec buf 4096),
        (Z.ltb_spec buf 262144), (Z.ltb_spec (buf * 64 + c) 64),
        (Z.ltb_spec (buf * 64 + c) 4096),
        (Z.ltb_spec (buf * 64 + c) 262144); lia.
    + destruct (IH 1 (out ++ [byte_of (Z.shiftr (buf * 64 + c) 16);
                              byte_of (Z.shiftr (buf * 64 + c) 8);
                              byte_of (buf * 64 + c)]))
        as (ok & buf' & out' & -> & ? & ? & Hle).
      * unfold buf_ok. lia.
      * apply Forall_app. split; [done |].
        repeat constructor; unfold is_byte, byte_of;
          apply Z.mod_pos_bound; lia.
      * exists ok, buf', out'. repeat split; try done.
        rewrite length_app in Hle. cbn [length] in Hle.
        unfold pending in Hle |- *.
        destruct (Z.ltb_spec buf 64), (Z.ltb_spec buf 4096),
          (Z.ltb_spec buf 262144); cbn in Hle; lia.
Qed.

(** X17: the room the decoder needs.  On every input of [n] bytes, accepted
    or not, [B64StandardDecode] returns having stored at most [3n/4] bytes
    through [out]. *)
Theorem B64StandardDecode_room (inp : list Z) :
  Forall is_byte inp ->
  exists ok out,
    B64StandardDecode inp = Ret (ok, out)
    /\ Forall is_byte out
    /\ 4 * Z.of_nat (length out) <= 3 * Z.of_nat (length inp).
Proof.
  intros Hinp. unfold B64StandardDecode.
  destruct (B64StandardDecode_loop_room inp Hinp 1 [])
    as (ok & buf & out & -> & Hbuf & Hout & Hle);
    [unfold buf_ok; lia | done |].
  rewrite bind_ret. cbv beta iota.
  pose proof (buf_ok_pending buf Hbuf) as [Hp Hrange].
  change (2 ^ 19) with 524288 in Hrange.
  cbn [length] in Hle. change (pending 1) with 0 in Hle.
  destruct ok; cbn [negb]; [| exists false, out; repeat split; (done || lia)].
  change 262144 with (2 ^ 18). change 4096 with (2 ^ 12).
  rewrite land_flag by (change (2 ^ (18 + 1)) with 524288; lia).
  change (2 ^ 18) with 262144.
  unfold buf_ok in Hbuf. unfold pending in Hle.
  destruct (Z.ltb_spec buf 262144) as [Hlt | Hge]; cbn [negb].
  - rewrite land_flag by (change (2 ^ (12 + 1)) with 8192; lia).
    change (2 ^ 12) with 4096.
    destruct (Z.ltb_spec buf 4096); cbn [negb].
    + exists true, out. repeat split; try done.
      destruct (Z.ltb_spec buf 64); lia.
    + eexists true, _. split; [done |]. split.
      * apply Forall_app. split; [done |].
        repeat constructor; unfold is_byte, byte_of;
          apply Z.mod_pos_bound; lia.
      * rewrite length_app. cbn [length].
        destruct (Z.ltb_spec buf 64); lia.
  - eexists true, _. split; [done |]. split.
    + apply Forall_app. split; [done |].
      repeat constructor; unfold is_byte, byte_of;
        apply Z.mod_pos_bound; lia.
    + rewrite length_app. cbn [length].
      destruct (Z.ltb_spec buf 64), (Z.ltb_spec buf 4096); lia.
Qed.

Lemma B64StandardDecode_room_witness :
  exists ok out,
    B64StandardDecode [97; 71; 107; 42] = Ret (ok, out)
    /\ Forall is_byte out
    /\ 4 * Z.of_nat (length out) <= 3 * Z.of_nat (length [97; 71; 107; 42]).
Proof.
  apply (B64StandardDecode_room [97; 71; 107; 42]).
  repeat constructor; unfold is_byte; lia.
Defined.

(** ** A buffer that is too small for the conversion in place *)

Section InlineOverflow.

Variables a b : Z.
Hypothesis Ha : 1 <= a <= 8.
Hypothesis Hb : 1 <= b <= 8.

Lemma flush_short (rest : list Z) :
  forall fuel work wb pre,
    (Z.to_nat wb <= fuel)%nat ->
    Z.of_nat (length rest) < (wb + b - 1) / b ->
    flush fuel b work wb (pre ++ rest) (length pre) = OutOfBounds.
Proof.
  induction rest as [| c rest IH]; intros fuel work wb pre Hfuel Hlen;
    cbn [length] in Hlen;
    (assert (1 <= wb) by (Z.div_mod_to_equations; nia));
    (destruct fuel as [| fuel]; [lia |]);
    cbn [flush]; rewrite gtb_true by lia.
  - by rewrite app_nil_r, store_full.
  - rewrite store_middle, bind_ret.
    rewrite <- length_snoc with (v := byte_of (Z.land work (mask_of b))).
    apply IH; [lia |].
    replace (wb - b + b - 1) with (wb + b - 1 - b) by lia.
    rewrite div_sub_self by lia. lia.
Qed.

Lemma flush_short_at (rest : list Z) fuel work wb pre (i : nat) :
  length pre = i ->
  (Z.to_nat wb <= fuel)%nat ->
  Z.of_nat (length rest) < (wb + b - 1) / b ->
  flush fuel b work wb (pre ++ rest) i = OutOfBounds.
Proof. intros <-. apply flush_short. Qed.

Variable buf : list Z.
Hypothesis Hbuf : Forall is_byte buf.
Variable flag : bool.

Lemma changeBase2Inline_rec_short (depth : nat) :
  forall src L work wb outLoc,
    let o := match outLoc with Some p => p | None => src end in
    let T := wb + a * Z.of_nat L in
    let c := inline_symbols a b flag T in
    (1 <= L)%nat -> (src + L <= length buf)%nat -> 0 <= wb ->
    T <= Z.of_nat depth -> (length buf < o + c)%nat ->
    changeBase2Inline_rec depth buf src L a b flag work wb outLoc
    = OutOfBounds.
Proof.
  induction depth as [| depth IH];
    intros src L work wb outLoc o T c HL Hsrc Hwb Hdepth Hcap;
    rewrite changeBase2Inline_rec_unfold; fold o; cbv zeta;
    destruct (gather_spec a b Ha Hb buf Hbuf L src work wb Hsrc Hwb)
      as (j & Hj & -> & Hmore & Hless);
    rewrite bind_ret; cbv beta iota;
    destruct (L - j)%nat as [| L'] eqn:HL'.
  1, 3: assert (j = L) as -> by lia;
    specialize (Hless ltac:(lia));
    assert (c = if flag then S (Z.to_nat ((wb + a * Z.of_nat L - 1) / b))
                else 1%nat) as Hc
      by (subst c; unfold inline_symbols; subst T; destruct flag; [done |];
          replace ((wb + a * Z.of_nat L - a) / b) with 0; [done |];
          symmetry; apply Z.div_small; nia);
    unfold store;
    (destruct (decide (o < length buf)%nat) as [Ho | Ho]; [| done]);
    rewrite bind_ret;
    (destruct flag; [| lia]);
    assert (0 <= (wb + a * Z.of_nat L - 1) / b) by (apply Z.div_pos; nia);
    rewrite <- (take_drop (S o) (<[o:=_]> buf));
    apply flush_short_at;
      [rewrite length_take, length_insert; lia | lia |];
    rewrite length_drop, length_insert;
    replace (wb + a * Z.of_nat L - b + b - 1)
      with (wb + a * Z.of_nat L - 1) by lia; lia.
  - subst T. nia.
  - specialize (Hmore ltac:(lia)). clear Hless.
    assert (0 <= wb + a * Z.of_nat j - b + a * Z.of_nat (S L')
                 - (if flag then 1 else a)) as Hpos
      by (destruct flag; nia).
    assert (c = S (inline_symbols a b flag
                     (wb + a * Z.of_nat j - b + a * Z.of_nat (S L')))) as Hc.
    { subst c T. unfold inline_symbols. f_equal.
      replace (wb + a * Z.of_nat L - (if flag then 1 else a))
        with (wb + a * Z.of_nat j - b + a * Z.of_nat (S L')
              - (if flag then 1 else a) + 1 * b) by nia.
      rewrite Z.div_add by lia.
      rewrite Z2Nat.inj_add; [| apply Z.div_pos; lia | lia].
      cbn. lia. }
    by rewrite (IH (src + j)%nat (S L') _ _ (Some (S o)));
      [| lia | lia | lia | subst T; nia | lia].
Qed.

End InlineOverflow.

(** X18: the room the conversion in place needs.  With widths in 1..8 and a
    non-empty input that lies in the buffer, [changeBase2Inline] runs out of
    the buffer exactly when the buffer has fewer cells than the symbols it
    stores: [ceil(n*a/b)] with the flag set, [floor((n-1)*a/b) + 1] with the
    flag clear. *)
Theorem changeBase2Inline_out_of_bounds (buf : list Z) (n : nat) (a b : Z)
    (flag : bool) :
  1 <= a <= 8 -> 1 <= b <= 8 -> Forall is_byte buf ->
  (1 <= n <= length buf)%nat ->
  let c := if flag then all_symbols a b n else S (full_symbols a b (n - 1)) in
  changeBase2Inline buf n a b flag = OutOfBounds <-> (length buf < c)%nat.
Proof.
  intros Ha Hb Hbuf Hn c.
  assert (inline_symbols a b flag (0 + a * Z.of_nat n) = c) as Hc.
  { subst c. destruct flag;
      [apply inline_symbols_set | apply inline_symbols_clear]; lia. }
  destruct (Nat.le_gt_cases c (length buf)) as [Hle | Hgt].
  - rewrite changeBase2Inline_spec by (done || lia). split; [done | lia].
  - split; [done | intros _]. unfold changeBase2Inline.
    apply (changeBase2Inline_rec_short a b Ha Hb buf Hbuf flag); lia.
Qed.

Lemma changeBase2Inline_out_of_bounds_witness :
  changeBase2Inline [104; 105] 2 8 6 true = OutOfBounds
  <-> (length [104; 105] < all_symbols 8 6 2)%nat.
Proof.
  apply (changeBase2Inline_out_of_bounds [104; 105] 2 8 6 true).
  - lia.
  - lia.
  - repeat constructor; unfold is_byte; lia.
  - cbn. lia.
Defined.
